(** * google-api-typings-generator: the schema-to-declaration compiler

    A shallow embedding of [google-api-typings-generator.ts]: the indented
    writer, the type renderer [getType], the declaration emitter
    ([processApi], [writeResources]) and the stub-value generator
    ([writeSchemaRef] and friends, [writeResourceTests]), followed by the
    properties established about them. *)

From Stdlib Require Import NArith String Ascii Sorted Permutation.
From stdpp Require Import base list gmap sets.

Set Warnings "-register-all,-clear-no-such-hyp".

Local Open Scope N_scope.

(** ** JavaScript strings

    A JavaScript string is a sequence of UTF-16 code units; [length],
    [indexOf], [split], [trim], the regular expressions of the source and the
    relational operator [>] all work on code units.  A string is a
    [list N]; [js] turns an ASCII literal into one. *)

Abbreviation jsstring := (list N).

Definition js (s : string) : jsstring :=
  List.map N_of_ascii (list_ascii_of_string s).

Definition dquote : jsstring := [34].
Definition newLine : jsstring := [10].
Definition tabString : jsstring := js "    ".

Fixpoint js_eqb (a b : jsstring) : bool :=
  match a, b with
  | [], [] => true
  | x :: a', y :: b' => (x =? y) && js_eqb a' b'
  | _, _ => false
  end.

(** [a < b] on strings: lexicographic on code units, a proper prefix first. *)
Fixpoint js_lt (a b : jsstring) : bool :=
  match a, b with
  | _, [] => false
  | [], _ :: _ => true
  | x :: a', y :: b' =>
      if x <? y then true else if y <? x then false else js_lt a' b'
  end.

(** [a > b] *)
Definition js_gt (a b : jsstring) : bool := js_lt b a.

(** [s.indexOf(c) >= 0] for a one-character needle [c]. *)
Definition contains (c : N) (s : jsstring) : bool := existsb (N.eqb c) s.

(** [s.split(c)] for a one-character separator: never empty. *)
Fixpoint split (c : N) (s : jsstring) : list jsstring :=
  match s with
  | [] => [[]]
  | x :: s' =>
      if x =? c then [] :: split c s'
      else match split c s' with
           | w :: ws => (x :: w) :: ws
           | [] => [[x]]
           end
  end.

(** [s.replace(/c/g, by)] for a one-character pattern. *)
Definition replaceAll (c : N) (by_ : jsstring) (s : jsstring) : jsstring :=
  flat_map (fun x => if x =? c then by_ else [x]) s.

(** ECMAScript [WhiteSpace] and [LineTerminator] code points, the ones
    [String.prototype.trim] strips. *)
Definition isWhiteSpace (c : N) : bool :=
  (c =? 0x9) || (c =? 0xA) || (c =? 0xB) || (c =? 0xC) || (c =? 0xD) ||
  (c =? 0x20) || (c =? 0xA0) || (c =? 0x1680) ||
  ((0x2000 <=? c) && (c <=? 0x200A)) ||
  (c =? 0x2028) || (c =? 0x2029) || (c =? 0x202F) || (c =? 0x205F) ||
  (c =? 0x3000) || (c =? 0xFEFF).

Fixpoint trimStart (s : jsstring) : jsstring :=
  match s with
  | c :: s' => if isWhiteSpace c then trimStart s' else s
  | [] => []
  end.

Definition trim (s : jsstring) : jsstring :=
  rev (trimStart (rev (trimStart s))).

(** [c.toUpperCase()] for one code unit.  Only the ASCII letters are mapped;
    keys of discovery documents are ASCII identifiers. *)
Definition toUpperCase (c : N) : N :=
  if (0x61 <=? c) && (c <=? 0x7A) then c - 0x20 else c.

(** ** Errors, the store and the monad of the writers *)

Inductive exn : Type :=
| Error (message : jsstring)
| TypeError (message : jsstring).

(** The error of the engine when a field of [undefined] is read. *)
Definition undefinedRead (field : string) : exn :=
  TypeError (js "Cannot read properties of undefined (reading '" ++ js field ++ js "')").

(** The mutable objects the generator works on: the buffer written so far
    and the [indent] field of the [IndentedTextWriter], and
    [App.seenSchemaRefs].  [indent] is only ever decremented after it was
    incremented, so it is a natural number. *)
Record Store : Type := mkStore {
  buffer : jsstring;
  indent : nat;
  seenSchemaRefs : gset jsstring
}.

Inductive outcome (A : Type) : Type :=
| Ret (a : A) (s : Store)
| Throw (e : exn) (s : Store)
| OutOfFuel.
Arguments Ret {A} a s.
Arguments Throw {A} e s.
Arguments OutOfFuel {A}.

Definition M (A : Type) : Type := Store -> outcome A.

#[global] Instance M_ret : MRet M := fun A a s => Ret a s.
#[global] Instance M_bind : MBind M := fun A B f m s =>
  match m s with
  | Ret a s' => f a s'
  | Throw e s' => Throw e s'
  | OutOfFuel => OutOfFuel
  end.

Definition throw {A} (e : exn) : M A := fun s => Throw e s.
Definition skip : M unit := mret tt.

(** The written text and the guard set an outcome leaves behind. *)
Definition emitted {A} (o : outcome A) : option jsstring :=
  match o with
  | Ret _ s | Throw _ s => Some (buffer s)
  | OutOfFuel => None
  end.

Definition finalStore {A} (o : outcome A) : option Store :=
  match o with
  | Ret _ s | Throw _ s => Some s
  | OutOfFuel => None
  end.

(** [for (const x of xs) body(x, index++)] *)
Fixpoint forOf {T} (xs : list T) (index : nat) (body : T -> nat -> M unit) : M unit :=
  match xs with
  | [] => skip
  | x :: xs' => body x index ;; forOf xs' (S index) body
  end.

(** ** IndentedTextWriter *)

Definition write (chunk : jsstring) : M unit :=
  fun s => Ret tt (mkStore (buffer s ++ chunk) (indent s) (seenSchemaRefs s)).

Definition indentBy (f : nat -> nat) : M unit :=
  fun s => Ret tt (mkStore (buffer s) (f (indent s)) (seenSchemaRefs s)).

(** [Array(n + 1).join(tabString)] *)
Definition tabs (n : nat) : jsstring := concat (replicate n tabString).

Definition startIndentedLine (chunk : jsstring) : M unit :=
  fun s => write (tabs (indent s) ++ chunk) s.

Definition writeLine (chunk : jsstring) : M unit :=
  startIndentedLine (chunk ++ newLine).

(** ** TypescriptTextWriter *)

Definition braces (text : jsstring) (context : M unit) : M unit :=
  writeLine (text ++ js " {") ;;
  indentBy S ;;
  context ;;
  indentBy pred ;;
  writeLine (js "}").

Definition referenceTypes (type : jsstring) : M unit :=
  writeLine (js "/// <reference types=" ++ dquote ++ type ++ dquote ++ js " />").

Definition namespace (name : jsstring) (context : M unit) : M unit :=
  braces (js "namespace " ++ name) context.

Definition declareNamespace (name : jsstring) (context : M unit) : M unit :=
  writeLine [] ;;
  braces (js "declare namespace " ++ name) context.

Definition interface (name : jsstring) (context : M unit) : M unit :=
  braces (js "interface " ++ name) context.

Definition endLine (chunk : jsstring) : M unit :=
  write chunk ;; write newLine.

Definition anonymysType (context : M unit) : M unit :=
  endLine (js "{") ;;
  indentBy S ;;
  context ;;
  indentBy pred ;;
  startIndentedLine (js "}").

Definition beginNewLine (chunk : jsstring) : M unit :=
  write newLine ;; startIndentedLine chunk.

Definition beginLine (chunk : jsstring) : M unit :=
  startIndentedLine chunk.

Definition scope (context : M unit) (startTag endTag : jsstring) : M unit :=
  write startTag ;;
  indentBy S ;;
  context ;;
  indentBy pred ;;
  write newLine ;;
  startIndentedLine endTag.

(** [string | TypescriptWriterCallback]: what [getType] returns and what
    [property], [method] and [write] accept. *)
Inductive RenderedType : Type :=
| Inline (text : jsstring)
| Block (emit : M unit).

(** [TypescriptTextWriter.write(chunk)] *)
Definition writeChunk (chunk : RenderedType) : M unit :=
  match chunk with
  | Inline text => write text
  | Block emit => emit
  end.

Definition formatPropertyName (name : jsstring) : jsstring :=
  if contains 0x2E name || contains 0x2D name || contains 0x40 name
  then dquote ++ name ++ dquote
  else name.

Definition property (name : jsstring) (type : RenderedType) (required : bool) : M unit :=
  match type with
  | Block emit =>
      startIndentedLine
        (formatPropertyName name ++ (if required then [] else js "?") ++ js ": ") ;;
      emit ;;
      endLine (js ";")
  | Inline text =>
      writeLine
        (formatPropertyName name ++ (if required then [] else js "?") ++ js ": "
           ++ text ++ js ";")
  end.

(** ** Comments *)

Definition irregylarSpaces : list N :=
  [ 0x000B; 0x000C; 0x00A0; 0x0085; 0x1680; 0x180E; 0xFEFF; 0x2000;
    0x2001; 0x2002; 0x2003; 0x2004; 0x2005; 0x2006; 0x2007; 0x2008;
    0x2009; 0x200A; 0x200B; 0x2028; 0x2029; 0x202F; 0x205F; 0x3000 ].

Definition maxLine : nat := 150.

(** [text.split(/\r\n|\r|\n|\u000a\u000d|\u000a|\u000d|␊/g)]: the
    alternatives are tried left to right, so CR LF is one separator and
    CR, LF and U+240A are separators on their own. *)
Fixpoint splitLines (s : jsstring) : list jsstring :=
  match s with
  | [] => [[]]
  | x :: s' =>
      if x =? 0xD then
        match s' with
        | y :: s'' => if y =? 0xA then [] :: splitLines s'' else [] :: splitLines s'
        | [] => [] :: splitLines s'
        end
      else if (x =? 0xA) || (x =? 0x240A) then [] :: splitLines s'
      else match splitLines s' with
           | l :: ls => (x :: l) :: ls
           | [] => [[x]]
           end
  end.

(** One turn of the loop over the words of a long line: the lines pushed so
    far and [newLine]. *)
Definition wrapStep (st : list jsstring * jsstring) (word : jsstring)
  : list jsstring * jsstring :=
  let '(lines, newLine) := st in
  if (maxLine <? length newLine + length word)%nat then (lines ++ [newLine], word)
  else if js_eqb newLine [] then (lines, word)
  else (lines, newLine ++ js " " ++ word).

Definition wrapLine (line : jsstring) : list jsstring :=
  let '(lines, newLine) := fold_left wrapStep (split 0x20 line) ([], []) in
  lines ++ [newLine].

(** The lines broken out of the text, before any replacement. *)
Definition brokenLines (text : jsstring) : list jsstring :=
  flat_map (fun line => if (maxLine <? length line)%nat then wrapLine line else [line])
           (splitLines (trim text)).

(** The [lines] array of [comment] just before it is written. *)
Definition commentLines (text : jsstring) : list jsstring :=
  let lines := brokenLines text in
  let lines := List.map (fun x => trim (replaceAll 0x2A (js "&#42;") x)) lines in
  fold_left (fun lines irregularSpace =>
               List.map (replaceAll irregularSpace (js " ")) lines)
            irregylarSpaces lines.

Definition comment (text : option jsstring) (avoidTrailingNewline : bool) : M unit :=
  match text with
  | None | Some [] => skip
  | Some text =>
      let lines := commentLines text in
      match lines with
      | [] => skip
      | [line] =>
          (if avoidTrailingNewline then beginLine else writeLine)
            (js "/** " ++ line ++ js " */")
      | _ =>
          writeLine (js "/**") ;;
          forOf lines 0 (fun line i =>
            let writeLine' :=
              if avoidTrailingNewline
              then if (i =? length lines - 1)%nat then writeLine else beginLine
              else writeLine in
            match line with
            | _ :: _ => writeLine' (js " * " ++ line)
            | [] => writeLine' (js " *")
            end) ;;
          writeLine (js " */")
      end
  end.

Definition formatComment (comment : jsstring) : jsstring := comment.

(** ** The discovery document *)

Inductive JsonSchema : Type := mkJsonSchema {
  id : option jsstring;
  type : option jsstring;
  ref : option jsstring;
  description : option jsstring;
  required : option bool;
  repeated : option bool;
  items : option JsonSchema;
  properties : option (list (jsstring * JsonSchema));
  additionalProperties : option JsonSchema
}.

Record RestMethod : Type := mkRestMethod {
  method_id : option jsstring;
  method_description : option jsstring;
  parameters : option (list (jsstring * JsonSchema));
  request : option JsonSchema;
  response : option JsonSchema
}.

Inductive RestResource : Type := mkRestResource {
  methods : option (list (jsstring * RestMethod));
  resources : option (list (jsstring * RestResource))
}.

Record Scope : Type := mkScope { scope_description : option jsstring }.
Record OAuth2 : Type := mkOAuth2 { scopes : option (list (jsstring * Scope)) }.
Record Auth : Type := mkAuth { oauth2 : option OAuth2 }.

Record RestDescription : Type := mkRestDescription {
  api_name : option jsstring;
  api_version : option jsstring;
  api_title : option jsstring;
  api_ownerName : option jsstring;
  api_documentationLink : option jsstring;
  api_schemas : option (list (jsstring * JsonSchema));
  api_parameters : option (list (jsstring * JsonSchema));
  api_methods : option (list (jsstring * RestMethod));
  api_resources : option (list (jsstring * RestResource));
  api_auth : option Auth
}.

(** A record (an object used as a map) is the list of its entries in
    enumeration order, with distinct keys; [record[key]] is the entry under
    [key]. *)
Fixpoint lookupKey {T} (key : jsstring) (record : list (jsstring * T)) : option T :=
  match record with
  | [] => None
  | (k, v) :: record' => if js_eqb k key then Some v else lookupKey key record'
  end.

(** A string used as a condition is true when it is there and not empty. *)
Definition truthy (s : option jsstring) : bool :=
  match s with
  | Some (_ :: _) => true
  | _ => false
  end.

(** [x || false] for an optional boolean. *)
Definition orFalse (b : option bool) : bool :=
  match b with
  | Some true => true
  | _ => false
  end.

(** A value interpolated into a template literal. *)
Definition show (s : option jsstring) : jsstring :=
  match s with
  | Some s => s
  | None => js "undefined"
  end.

Definition lift {A} (r : exn + A) : M A :=
  match r with
  | inl e => throw e
  | inr a => mret a
  end.

(** ** Free functions *)

Definition checkExists {T} (property : option T) (parentType propertyName : option jsstring)
  : exn + T :=
  match property with
  | Some v => inr v
  | None =>
      match parentType, propertyName with
      | Some (p :: parentType'), Some (n :: propertyName') =>
          inl (Error (js "Expected property '" ++ (n :: propertyName') ++ js "' on "
                        ++ (p :: parentType') ++ js " type but was undefined"))
      | _, _ => inl (Error (js "Expected value to be defined but received undefined"))
      end
  end.

(** [array.sort((a, b) => a > b ? 1 : -1)] on the keys of a record.  The
    keys are distinct, so the comparator orders them totally and every sort
    gives the same array; it is written as an insertion sort, in which an
    element moves right past the ones it is greater than. *)
Fixpoint insertSorted (a : jsstring) (sorted : list jsstring) : list jsstring :=
  match sorted with
  | [] => [a]
  | b :: sorted' => if js_gt a b then b :: insertSorted a sorted' else a :: sorted
  end.

Definition sortStrings (keys : list jsstring) : list jsstring :=
  fold_right insertSorted [] keys.

(** [forEachOrdered(record, iterator)]: nothing for a missing record,
    otherwise [iterator(record[key], key, index++)] for the sorted keys. *)
Definition forEachOrdered {T} (record : option (list (jsstring * T)))
    (iterator : T -> jsstring -> nat -> M unit) : M unit :=
  match record with
  | None => skip
  | Some record =>
      forOf (sortStrings (List.map fst record)) 0 (fun key index =>
        match lookupKey key record with
        | Some value => iterator value key index
        | None => skip
        end)
  end.

(** [entries.sort(({ resourceKey: a }, { resourceKey: b }) => a > b ? 1 : -1)] *)
Fixpoint insertEntry {T} (e : jsstring * T) (sorted : list (jsstring * T))
  : list (jsstring * T) :=
  match sorted with
  | [] => [e]
  | b :: sorted' =>
      if js_gt (fst e) (fst b) then b :: insertEntry e sorted' else e :: sorted
  end.

Definition isEmptySchema (schema : JsonSchema) : bool :=
  match properties schema with
  | None | Some [] => negb (bool_decide (is_Some (additionalProperties schema)))
  | Some (_ :: _) => false
  end.

(** [typesMap[t] || t] *)
Definition typesMap (t : jsstring) : jsstring :=
  if js_eqb t (js "integer") then js "number"
  else if js_eqb t (js "object") then js "any"
  else t.

(** [s === lit] for a field that may be missing. *)
Definition strictEq (s : option jsstring) (lit : jsstring) : bool :=
  match s with
  | Some s => js_eqb s lit
  | None => false
  end.

Definition isDigit (c : N) : bool := (0x30 <=? c) && (c <=? 0x39).

Fixpoint digits (s : jsstring) : jsstring * jsstring :=
  match s with
  | c :: s' => if isDigit c then let '(d, rest) := digits s' in (c :: d, rest) else ([], s)
  | [] => ([], [])
  end.

(** What follows the first [v] of the string, where the match of
    [/v(\d+)?\.?(\d+)?/] begins. *)
Fixpoint afterV (s : jsstring) : option jsstring :=
  match s with
  | [] => None
  | c :: s' => if c =? 0x76 then Some s' else afterV s'
  end.

Definition convertVersion (version : jsstring) : jsstring :=
  match afterV version with
  | Some rest =>
      let '(major, rest) := digits rest in
      let rest := match rest with
                  | c :: rest' => if c =? 0x2E then rest' else rest
                  | [] => rest
                  end in
      let '(minor, _) := digits rest in
      (match major with [] => js "0" | _ => major end) ++ js "."
        ++ (match minor with [] => js "0" | _ => minor end)
  | None => js "0.0"
  end.

Definition getName (path : jsstring) : jsstring :=
  List.last (split 0x2E path) [].

(** [{ ...a, ...b }]: a key of [b] already in [a] keeps its place and takes
    the new value, a new key goes to the end. *)
Fixpoint setKey {T} (key : jsstring) (value : T) (record : list (jsstring * T))
  : list (jsstring * T) :=
  match record with
  | [] => [(key, value)]
  | (k, v) :: record' =>
      if js_eqb k key then (k, value) :: record' else (k, v) :: setKey key value record'
  end.

Definition spread {T} (a b : list (jsstring * T)) : list (jsstring * T) :=
  fold_left (fun acc kv => setKey (fst kv) (snd kv) acc) b a.

(** [sortKeys(record)]: the entries, sorted by key, are put one by one
    into a fresh object with [{ ...curr, [resourceKey]: resource }]. *)
Definition sortKeys {T} (record : list (jsstring * T)) : list (jsstring * T) :=
  fold_left (fun curr e => setKey (fst e) (snd e) curr)
            (fold_right insertEntry [] record) [].

Definition method (name : jsstring) (parameters : list (jsstring * RenderedType))
    (returnType : jsstring) (singleLine : bool) : M unit :=
  startIndentedLine (name ++ js "(") ;;
  forOf parameters 0 (fun parameter index =>
    write (fst parameter ++ js ": ") ;;
    writeChunk (snd parameter) ;;
    if (index + 1 <? length parameters)%nat
    then write (js ",") ;; (if singleLine then write (js " ") else beginNewLine [])
    else skip) ;;
  write (js "): " ++ returnType ++ js ";") ;;
  endLine [].

(** The body shared by the three callbacks that render the properties of a
    record, in [getType], in [App.writeResources] and in [App.processApi]:
    [data.description && writer.comment(formatComment(data.description));
     writer.property(key, getType(data, schemas), data.required || false)].
    [rendered] is the value of [getType(data, schemas)], an error when that
    call throws. *)
Definition emitProperty (key : jsstring) (data : JsonSchema)
    (rendered : exn + RenderedType) : M unit :=
  (if truthy (description data)
   then comment (Some (formatComment (show (description data)))) false
   else skip) ;;
  type ← lift rendered ;
  property key type (orFalse (required data)).

(** [forEachOrdered] sorts the keys before it visits the values, so the
    recursive calls on the properties are made while the record is walked
    in its own order and each value travels with the result of its call. *)
Fixpoint getType (type_ : JsonSchema) (schemas : option (list (jsstring * JsonSchema)))
    {struct type_} : exn + RenderedType :=
  let scalarOrReference : exn + RenderedType :=
    if truthy (type type_) then
      let t := typesMap (show (type type_)) in
      inr (Inline (if orFalse (repeated type_) then t ++ js " | " ++ t ++ js "[]" else t))
    else if truthy (ref type_) then
      match checkExists schemas None None with
      | inl e => inl e
      | inr schemas_ =>
          match lookupKey (show (ref type_)) schemas_ with
          | None =>
              inl (undefinedRead "properties")
          | Some referencedType =>
              if isEmptySchema referencedType then inr (Inline (js "any"))
              else inr (Inline (show (ref type_)))
          end
      end
    else inl (Error []) in
  if strictEq (type type_) (js "array") then
    match items type_ with
    | None => checkExists (@None RenderedType) (Some (js "array")) (Some (js "items"))
    | Some items_ =>
        match getType items_ schemas with
        | inl e => inl e
        | inr (Inline child) => inr (Inline (child ++ js "[]"))
        | inr (Block child) =>
            inr (Block (write (js "Array<") ;; child ;; write (js ">")))
        end
    end
  else if strictEq (type type_) (js "object") then
    match properties type_ with
    | Some properties_ =>
        inr (Block (anonymysType (
          forEachOrdered
            (Some (List.map (fun kv => (fst kv, (snd kv, getType (snd kv) schemas)))
                            properties_))
            (fun property_ propertyName _ =>
               emitProperty propertyName (fst property_) (snd property_)) ;;
          match additionalProperties type_ with
          | Some additional =>
              type ← lift (getType additional schemas) ;
              property (js "[key: string]") type true
          | None => skip
          end)))
    | None =>
        match additionalProperties type_ with
        | Some additional =>
            inr (Block (
              child ← lift (getType additional schemas) ;
              write (js "Record<string, ") ;;
              writeChunk child ;;
              write (js ">")))
        | None => scalarOrReference
        end
    end
  else scalarOrReference.

Definition getMethodReturn (method : RestMethod)
    (schemas : option (list (jsstring * JsonSchema))) : exn + jsstring :=
  match checkExists schemas None None with
  | inl e => inl e
  | inr schemas_ =>
      let name := match lookupKey (js "Request") schemas_ with
                  | Some _ => js "client.Request"
                  | None => js "Request"
                  end in
      match response method with
      | Some response_ =>
          let schemaName := ref response_ in
          match (if truthy schemaName then lookupKey (show schemaName) schemas_ else None) with
          | Some schema =>
              if negb (isEmptySchema schema)
              then inr (name ++ js "<" ++ show schemaName ++ js ">")
              else inr (name ++ js "<{}>")
          | None => inr (name ++ js "<{}>")
          end
      | None => inr (name ++ js "<void>")
      end
  end.

(** ** App: the declaration file *)

Definition getResourceTypeName (resourceName : jsstring) : exn + jsstring :=
  match resourceName with
  | c :: rest => inr (toUpperCase c :: rest ++ js "Resource")
  | [] => inl (undefinedRead "toUpperCase")
  end.

(** The callback of the loop over [resource.methods]. *)
Definition writeMethod (parameters_ : list (jsstring * JsonSchema))
    (schemas : option (list (jsstring * JsonSchema)))
    (method_ : RestMethod) (name : jsstring) : M unit :=
  (if truthy (method_description method_)
   then comment (Some (formatComment (show (method_description method_)))) false
   else skip) ;;
  requestBody ←
    match request method_ with
    | Some request_ =>
        if truthy (ref request_) then
          schemas_ ← lift (checkExists schemas None None) ;
          match lookupKey (show (ref request_)) schemas_ with
          | Some schema =>
              mret [(js "body",
                     Inline (if isEmptySchema schema then js "any" else show (ref request_)))]
          | None => throw (undefinedRead "properties")
          end
        else mret []
    | None => mret []
    end ;
  id_ ← lift (checkExists (method_id method_) (Some (js "method")) (Some (js "id"))) ;
  returnType ← lift (getMethodReturn method_ schemas) ;
  method (getName id_)
    ((js "request",
      Block (anonymysType (
        let requestParameters :=
          spread parameters_ (match parameters method_ with Some p => p | None => [] end) in
        forEachOrdered (Some requestParameters) (fun data key _ =>
          emitProperty key data (getType data schemas)))))
       :: requestBody)
    returnType false.

(** The callback of the loop over [resources]: [nested] is the call
    [this.writeResources(out, resource.resources, parameters, schemas)]. *)
Definition writeResource (parameters_ : list (jsstring * JsonSchema))
    (schemas : option (list (jsstring * JsonSchema)))
    (nested : M unit) (resource : RestResource) (resourceName : jsstring) : M unit :=
  resourceInterfaceName ← lift (getResourceTypeName resourceName) ;
  nested ;;
  interface resourceInterfaceName (
    forEachOrdered (methods resource) (fun method_ name _ =>
      writeMethod parameters_ schemas method_ name) ;;
    forEachOrdered (resources resource) (fun childResource childResourceName _ =>
      childResourceInterfaceName ← lift (getResourceTypeName childResourceName) ;
      property childResourceName (Inline childResourceInterfaceName) true)).

(** [this.writeResources(out, resource.resources, parameters, schemas)]:
    as in [getType], every child travels with the call made on it. *)
Fixpoint writeNestedResources (parameters_ : list (jsstring * JsonSchema))
    (schemas : option (list (jsstring * JsonSchema)))
    (resource : RestResource) {struct resource} : M unit :=
  forEachOrdered
    (match resources resource with
     | Some children =>
         Some (List.map (fun kv =>
                 (fst kv, (snd kv, writeNestedResources parameters_ schemas (snd kv))))
               children)
     | None => None
     end)
    (fun child childName _ =>
       writeResource parameters_ schemas (snd child) (fst child) childName).

Definition writeResources (resources_ : option (list (jsstring * RestResource)))
    (parameters_ : option (list (jsstring * JsonSchema)))
    (schemas : option (list (jsstring * JsonSchema))) : M unit :=
  let parameters_ := match parameters_ with Some p => p | None => [] end in
  forEachOrdered
    (match resources_ with
     | Some rs =>
         Some (List.map (fun kv =>
                 (fst kv, (snd kv, writeNestedResources parameters_ schemas (snd kv))))
               rs)
     | None => None
     end)
    (fun resource resourceName _ =>
       writeResource parameters_ schemas (snd resource) (fst resource) resourceName).

(** The methods of a resource and of everything below it. *)
Fixpoint processResource (resource : RestResource) : list RestMethod :=
  (match methods resource with Some ms => List.map snd ms | None => [] end)
  ++ (match resources resource with
      | Some rs => flat_map (fun kv => processResource (snd kv)) rs
      | None => []
      end).

Definition newWriter : M unit :=
  fun s => Ret tt (mkStore [] 0 (seenSchemaRefs s)).

(** What [processApi] writes once its writer exists. *)
Definition processApiBody (api : RestDescription) (url : jsstring) : M unit :=
  writeLine (js "// Type definitions for non-npm package " ++ show (api_ownerName api)
             ++ js " " ++ show (api_title api) ++ js " " ++ show (api_version api)
             ++ js " "
             ++ convertVersion (match api_version api with
                                | Some (c :: v) => c :: v
                                | _ => []
                                end)) ;;
  writeLine (js "// Project: " ++ show (api_documentationLink api)) ;;
  writeLine (js "// Definitions by: Bolisov Alexey <https://github.com/Bolisov>") ;;
  writeLine (js "//                 Declan Vong <https://github.com/declanvong>") ;;
  writeLine (js "// Definitions: https://github.com/DefinitelyTyped/DefinitelyTyped") ;;
  writeLine (js "// TypeScript Version: 3.7") ;;
  writeLine [] ;;
  writeLine (js "// IMPORTANT") ;;
  writeLine (js "// These definitions are for the Google API Javascript Client: https://github.com/google/google-api-javascript-client") ;;
  writeLine (js "// This file was generated by https://github.com/declanvong/google-api-typings-generator. Please do not edit it manually.") ;;
  writeLine (js "// In case of any problems please post issue to https://github.com/declanvong/google-api-typings-generator") ;;
  writeLine (js "// Generated from: " ++ url) ;;
  writeLine [] ;;
  referenceTypes (js "gapi.client") ;;
  declareNamespace (js "gapi.client") (
    comment (Some (formatComment (js "Load " ++ show (api_title api) ++ js " "
                                    ++ show (api_version api)))) false ;;
    method (js "function load")
      [ (js "name", Inline (dquote ++ show (api_name api) ++ dquote));
        (js "version", Inline (dquote ++ show (api_version api) ++ dquote)) ]
      (js "PromiseLike<void>") true ;;
    method (js "function load")
      [ (js "name", Inline (dquote ++ show (api_name api) ++ dquote));
        (js "version", Inline (dquote ++ show (api_version api) ++ dquote));
        (js "callback", Inline (js "() => any")) ]
      (js "void") true ;;
    endLine [] ;;
    name ← lift (checkExists (api_name api) (Some (js "api")) (Some (js "name"))) ;
    namespace name (
      forEachOrdered (api_schemas api) (fun schema key _ =>
        schemaId ← lift (checkExists (id schema) None None) ;
        if negb (isEmptySchema schema) then
          interface schemaId (
            forEachOrdered (properties schema) (fun data key _ =>
              emitProperty key data (getType data (api_schemas api))) ;;
            match additionalProperties schema with
            | Some additional =>
                type ← lift (getType additional (api_schemas api)) ;
                property (js "[key: string]") type true
            | None => skip
            end)
        else skip) ;;
      writeResources (api_resources api) (api_parameters api) (api_schemas api) ;;
      forEachOrdered (api_resources api) (fun resource resourceName _ =>
        if negb (js_eqb resourceName (js "debugger")) then
          endLine [] ;;
          typeName ← lift (getResourceTypeName resourceName) ;
          writeLine (js "const " ++ resourceName ++ js ": " ++ typeName ++ js ";")
        else skip))).

Definition processApi (api : RestDescription) (url : jsstring) : M unit :=
  let rawMethods :=
    processResource (mkRestResource (api_methods api) (api_resources api)) in
  (* getNamespace(x.id) and getName(x.id) split the id of every method *)
  (if forallb (fun x => bool_decide (is_Some (method_id x))) rawMethods
   then skip else throw (undefinedRead "split")) ;;
  newWriter ;;
  processApiBody api url.

(** ** App: the stub values of the tests file

    The five methods call each other and follow references through the
    table of schemas, so they are defined by recursion on a bound [fuel] on
    the depth of the calls; every call takes one unit. *)

Definition seenAdd (schemaName : jsstring) : M unit :=
  fun s => Ret tt (mkStore (buffer s) (indent s) (seenSchemaRefs s ∪ {[schemaName]})).

Definition seenDelete (schemaName : jsstring) : M unit :=
  fun s => Ret tt (mkStore (buffer s) (indent s) (seenSchemaRefs s ∖ {[schemaName]})).

Definition seenHas (schemaName : jsstring) (s : Store) : bool :=
  bool_decide (schemaName ∈ seenSchemaRefs s).

Fixpoint writePropertyValue (fuel : nat) (api : RestDescription) (property_ : JsonSchema)
    {struct fuel} : M unit :=
  match fuel with
  | O => fun _ => OutOfFuel
  | S fuel =>
      let t := type property_ in
      if strictEq t (js "number") || strictEq t (js "integer") then write (js "42")
      else if strictEq t (js "boolean") then write (js "true")
      else if strictEq t (js "string") then write (dquote ++ js "Test string" ++ dquote)
      else if strictEq t (js "array") then
        items_ ← lift (checkExists (items property_) (Some (js "array")) (Some (js "items"))) ;
        writeArray fuel api items_
      else if strictEq t (js "object") then writeObject fuel api property_
      else if strictEq t (js "any") then write (js "42")
      else throw (Error (js "Unknown scalar type " ++ show t))
  end

with writeArray (fuel : nat) (api : RestDescription) (items_ : JsonSchema)
    {struct fuel} : M unit :=
  match fuel with
  | O => fun _ => OutOfFuel
  | S fuel =>
      let schemaName := ref items_ in
      fun s =>
        if truthy schemaName && seenHas (show schemaName) s then write (js "undefined") s
        else
          scope (beginNewLine [] ;;
                 if truthy schemaName then writeSchemaRef fuel api (show schemaName)
                 else writePropertyValue fuel api items_)
                (js "[") (js "]") s
  end

with writeObject (fuel : nat) (api : RestDescription) (object : JsonSchema)
    {struct fuel} : M unit :=
  match fuel with
  | O => fun _ => OutOfFuel
  | S fuel =>
      let schemaName := additionalProperties object ≫= ref in
      fun s =>
        if truthy schemaName && seenHas (show schemaName) s then write (js "undefined") s
        else
          match properties object with
          | Some properties_ =>
              scope (writeProperties fuel api properties_) (js "{") (js "}") s
          | None =>
              match additionalProperties object with
              | Some additional =>
                  scope (beginNewLine (js "A: ") ;;
                         if truthy schemaName then writeSchemaRef fuel api (show schemaName)
                         else writePropertyValue fuel api additional)
                        (js "{") (js "}") s
              | None => writePropertyValue fuel api object s
              end
          end
  end

with writeSchemaRef (fuel : nat) (api : RestDescription) (schemaName : jsstring)
    {struct fuel} : M unit :=
  match fuel with
  | O => fun _ => OutOfFuel
  | S fuel =>
      fun s =>
        if seenHas schemaName s then write (js "undefined") s
        else
          (schemas ← lift (checkExists (api_schemas api) None None) ;
           match lookupKey schemaName schemas with
           | None =>
               throw (Error (js "Attempted to generate stub for unknown schema '"
                               ++ schemaName ++ js "'"))
           | Some schema =>
               seenAdd schemaName ;;
               writeObject fuel api schema ;;
               seenDelete schemaName
           end) s
  end

with writeProperties (fuel : nat) (api : RestDescription)
    (record : list (jsstring * JsonSchema)) {struct fuel} : M unit :=
  match fuel with
  | O => fun _ => OutOfFuel
  | S fuel =>
      forEachOrdered (Some record) (fun parameter name _ =>
        beginNewLine (formatPropertyName name ++ js ": ") ;;
        (if strictEq (type parameter) (js "object") then writeObject fuel api parameter
         else if truthy (ref parameter) then writeSchemaRef fuel api (show (ref parameter))
         else writePropertyValue fuel api parameter) ;;
        write (js ","))
  end.

(** [for (const key in record) body(key, record[key])]: the entries in
    enumeration order, which is the order of the list; nothing when the
    record is missing. *)
Definition forIn {T} (record : option (list (jsstring * T)))
    (body : jsstring -> T -> M unit) : M unit :=
  match record with
  | None => skip
  | Some entries =>
      (fix loop (l : list (jsstring * T)) : M unit :=
         match l with
         | [] => skip
         | kv :: l' => body (fst kv) (snd kv) ;; loop l'
         end) entries
  end.

Fixpoint writeResourceTests (fuel : nat) (api : RestDescription)
    (ancestors resourceName : jsstring) (resource : RestResource)
    {struct resource} : M unit :=
  forIn (methods resource) (fun methodName method_ =>
    endLine [] ;;
    comment (method_description method_) false ;;
    beginLine (js "await " ++ ancestors ++ js "." ++ resourceName ++ js "."
                 ++ methodName ++ js "(") ;;
    match parameters method_ with
    | Some params => scope (writeProperties fuel api params) (js "{") (js "}")
    | None => skip
    end ;;
    match request method_ ≫= ref with
    | Some ref_ => write (js ", ") ;; writeSchemaRef fuel api ref_
    | None => skip
    end ;;
    write (js ");") ;;
    forIn (resources resource) (fun subResource sub =>
      writeResourceTests fuel api (ancestors ++ js "." ++ resourceName) subResource sub)).

Definition writeTests (fuel : nat) (api : RestDescription) : M unit :=
  newWriter ;;
  write (js "/* This is stub file for gapi.client." ++ show (api_name api)
           ++ js " definition tests */" ++ newLine
           ++ js "/* IMPORTANT." ++ newLine
           ++ js "* This file was automatically generated by https://github.com/declanvong/google-api-typings-generator. Please do not edit it manually." ++ newLine
           ++ js "* In case of any problems please post issue to https://github.com/declanvong/google-api-typings-generator" ++ newLine
           ++ js "**/") ;;
  writeLine [] ;;
  beginLine (js "gapi.load('client', () => ") ;;
  scope (
    endLine [] ;;
    comment (Some (js "now we can use gapi.client")) false ;;
    beginLine (js "gapi.client.load('" ++ show (api_name api) ++ js "', '"
                 ++ show (api_version api) ++ js "', () => ") ;;
    scope (
      endLine [] ;;
      comment (Some (js "now we can use gapi.client." ++ show (api_name api))) false ;;
      endLine [] ;;
      match api_auth api with
      | Some auth =>
          comment (Some (js "don't forget to authenticate your client before sending any request to resources:")) false ;;
          comment (Some (js "declare client_id registered in Google Developers Console")) false ;;
          writeLine (js "const client_id = '<<PUT YOUR CLIENT ID HERE>>';") ;;
          beginLine (js "const scope = ") ;;
          scope (
            match oauth2 auth with
            | Some oauth2_ =>
                forIn (scopes oauth2_) (fun a scope_ =>
                  endLine [] ;;
                  comment (scope_description scope_) false ;;
                  beginLine (js "'" ++ a ++ js "',"))
            | None => throw (undefinedRead "scopes")
            end) (js "[") (js "]") ;;
          endLine (js ";") ;;
          writeLine (js "const immediate = true;") ;;
          beginNewLine (js "gapi.auth.authorize({ client_id, scope, immediate }, authResult => ") ;;
          scope (
            beginNewLine (js "if (authResult && !authResult.error) ") ;;
            scope (
              endLine [] ;;
              comment (Some (js "handle succesfull authorization")) false ;;
              beginLine (js "run();")) (js "{") (js "}") ;;
            write (js " else ") ;;
            scope (
              endLine [] ;;
              comment (Some (js "handle authorization error")) true) (js "{") (js "}"))
            (js "{") (js "}") ;;
          endLine (js ");")
      | None => skip
      end ;;
      beginLine (js "run();")) (js "{") (js "}") ;;
    endLine (js ");") ;;
    endLine [] ;;
    beginLine (js "async function run() ") ;;
    scope (
      forIn (api_resources api) (fun resourceName resource =>
        writeResourceTests fuel api (js "gapi.client." ++ show (api_name api))
                           resourceName resource)) (js "{") (js "}"))
    (js "{") (js "}") ;;
  endLine (js ");").

(** * Notions used in the statements *)

Arguments js : simpl never.
Arguments forEachOrdered : simpl never.
Arguments comment : simpl never.

(** ** Measures *)

(** The number of nodes of a schema. *)
Fixpoint schemaSize (schema : JsonSchema) : nat :=
  S ((match items schema with Some i => schemaSize i | None => 0 end)
     + (match properties schema with
        | Some ps => list_sum (List.map (fun kv => schemaSize (snd kv)) ps)
        | None => 0
        end)
     + (match additionalProperties schema with Some a => schemaSize a | None => 0 end)).

Fixpoint resourceSize (resource : RestResource) : nat :=
  S (match resources resource with
     | Some rs => list_sum (List.map (fun kv => resourceSize (snd kv)) rs)
     | None => 0
     end).

(** ** Computations on the writer *)

Definition withSeen (X : gset jsstring) (s : Store) : Store :=
  mkStore (buffer s) (indent s) X.

Definition mapStore {A} (f : Store -> Store) (o : outcome A) : outcome A :=
  match o with
  | Ret a s => Ret a (f s)
  | Throw e s => Throw e (f s)
  | OutOfFuel => OutOfFuel
  end.

(** A computation that only drives the writer: it ends, it appends to the
    buffer, it is back at the depth it started from when it returns, and it
    neither reads nor changes the guard set. *)
Definition writerOnly {A} (m : M A) : Prop :=
  ∀ s, (∃ text, emitted (m s) = Some (buffer s ++ text)) ∧
       (∀ a s', m s = Ret a s' → indent s' = indent s) ∧
       (∀ X, m (withSeen X s) = mapStore (withSeen X) (m s)).

Definition writerOnlyType (t : RenderedType) : Prop :=
  match t with
  | Inline _ => True
  | Block emit => writerOnly emit
  end.

(** A computation that only appends text: it returns, and leaves the depth
    and the guard set alone. *)
Definition plainWrite (m : M unit) : Prop :=
  ∀ s, ∃ text, m s = Ret tt (mkStore (buffer s ++ text) (indent s) (seenSchemaRefs s)).

(** Occurrences of [needle] in [text], counted at every position. *)
Fixpoint startsWith (needle text : jsstring) : bool :=
  match needle, text with
  | [], _ => true
  | _ :: _, [] => false
  | x :: needle', y :: text' => N.eqb x y && startsWith needle' text'
  end.

Fixpoint occurrences (needle text : jsstring) : nat :=
  match text with
  | [] => 0
  | _ :: text' =>
      (if startsWith needle text then 1 else 0) + occurrences needle text'
  end.

(** ** Names and properties *)

(** A name that [formatPropertyName] quotes. *)
Definition hasSpecial (name : jsstring) : Prop :=
  In 0x2E name ∨ In 0x2D name ∨ In 0x40 name.

(** The mark [property] puts after the name of a property whose schema
    carries [required]. *)
Definition optionalMark (required : option bool) : jsstring :=
  match required with
  | Some true => []
  | Some false | None => js "?"
  end.

(** [Capitalize(name)]: the first letter in upper case. *)
Definition capitalize (name : jsstring) : jsstring :=
  match name with
  | c :: rest => toUpperCase c :: rest
  | [] => []
  end.

(** The store once [interface Name {] is written at the current depth. *)
Definition interfaceOpened (name : jsstring) (s : Store) : Store :=
  mkStore (buffer s ++ tabs (indent s) ++ js "interface " ++ name ++ js " {" ++ newLine)
          (S (indent s)) (seenSchemaRefs s).

(** One line [child: ChildResource;] per key, at depth [n]. *)
Definition childPropertyLines (n : nat) (keys : list jsstring) : jsstring :=
  concat (List.map (fun child =>
                      tabs n ++ formatPropertyName child ++ js ": "
                        ++ capitalize child ++ js "Resource" ++ js ";" ++ newLine)
                   keys).

(** ** Comments *)

(** What becomes of one code unit of a comment line. *)
Definition substitute (c : N) : jsstring :=
  if c =? 0x2A then js "&#42;"
  else if existsb (N.eqb c) irregylarSpaces then js " "
  else [c].

(** The words of a line: what stands between its spaces. *)
Definition words (line : jsstring) : list jsstring :=
  List.filter (fun w => negb (js_eqb w [])) (split 0x20 line).

Definition trimEnd (s : jsstring) : jsstring := rev (trimStart (rev s)).

(** The loop of [comment] over [irregylarSpaces], on one line. *)
Definition replaceEach (cs : list N) (l : jsstring) : jsstring :=
  fold_left (fun l c => replaceAll c (js " ") l) cs l.

(** ** Stub values *)

(** An object node says what it holds: a schema of type [object] has
    [properties] or [additionalProperties], here and below. *)
Fixpoint shaped (schema : JsonSchema) : bool :=
  (negb (strictEq (type schema) (js "object"))
   || match properties schema with Some _ => true | None => false end
   || match additionalProperties schema with Some _ => true | None => false end)
  && match items schema with Some i => shaped i | None => true end
  && match properties schema with
     | Some ps => forallb (fun kv => shaped (snd kv)) ps
     | None => true
     end
  && match additionalProperties schema with Some a => shaped a | None => true end.

Definition shapedTable (schemas : list (jsstring * JsonSchema)) : bool :=
  forallb (fun kv => shaped (snd kv)) schemas.

Definition tableOf (api : RestDescription) : list (jsstring * JsonSchema) :=
  match api_schemas api with
  | Some schemas => schemas
  | None => []
  end.

(** The names of the table that are not being expanded. *)
Definition unseen (schemas : list (jsstring * JsonSchema)) (X : gset jsstring) : nat :=
  size (list_to_set (List.map fst schemas) ∖ X : gset jsstring).

Definition maxSize (schemas : list (jsstring * JsonSchema)) : nat :=
  list_max (List.map (fun kv => schemaSize (snd kv)) schemas).

(** Calls enough to expand one schema of the table down to its references. *)
Definition expansionCost (schemas : list (jsstring * JsonSchema)) : nat :=
  4 * maxSize schemas + 4.

(** Calls enough for any reference of the document. *)
Definition stubFuel (api : RestDescription) : nat :=
  length (tableOf api) * expansionCost (tableOf api) + 1.

(** What a stub writer leaves behind: when it returns, the guard set and
    the depth are what they were and text was appended; when it throws, the
    guard set has not lost a name and text was appended. *)
Definition restores (m : M unit) : Prop :=
  ∀ s, match m s with
       | Ret _ s' =>
           seenSchemaRefs s' = seenSchemaRefs s ∧ indent s' = indent s ∧
           ∃ text, buffer s' = buffer s ++ text
       | Throw _ s' =>
           seenSchemaRefs s ⊆ seenSchemaRefs s' ∧
           ∃ text, buffer s' = buffer s ++ text
       | OutOfFuel => True
       end.

(** The computation ends when started with the guard set [X]. *)
Definition terminates (X : gset jsstring) (m : M unit) : Prop :=
  ∀ s, seenSchemaRefs s = X → m s ≠ OutOfFuel.

(** The five writers of stub values, for one bound on the calls. *)
Definition stubWriters (P : M unit → Prop) (fuel : nat) (api : RestDescription) : Prop :=
  (∀ property_, P (writePropertyValue fuel api property_)) ∧
  (∀ items_, P (writeArray fuel api items_)) ∧
  (∀ object_, P (writeObject fuel api object_)) ∧
  (∀ schemaName, P (writeSchemaRef fuel api schemaName)) ∧
  (∀ record, P (writeProperties fuel api record)).

(** Calls enough for each of the five writers when at most [k] names of the
    table are not being expanded. *)
Definition enoughFor (api : RestDescription) (fuel : nat) : Prop :=
  let W := expansionCost (tableOf api) in
  let left_ := unseen (tableOf api) in
  (∀ p X k, shaped p = true → (left_ X ≤ k)%nat →
      (k * W + 4 * schemaSize p
         + (if strictEq (type p) (js "object") then 3 else 1) ≤ fuel)%nat →
      terminates X (writePropertyValue fuel api p)) ∧
  (∀ it X k, shaped it = true → (left_ X ≤ k)%nat →
      (k * W + 4 * schemaSize it + 4 ≤ fuel)%nat →
      terminates X (writeArray fuel api it)) ∧
  (∀ o X k, shaped o = true → (left_ X ≤ k)%nat →
      (k * W + 4 * schemaSize o + 2 ≤ fuel)%nat →
      terminates X (writeObject fuel api o)) ∧
  (∀ name X k, (left_ X ≤ k)%nat → (k * W + 1 ≤ fuel)%nat →
      terminates X (writeSchemaRef fuel api name)) ∧
  (∀ record n X k,
      (∀ key v, In (key, v) record → shaped v = true ∧ (schemaSize v ≤ n)%nat) →
      (left_ X ≤ k)%nat → (k * W + 4 * n + 5 ≤ fuel)%nat →
      terminates X (writeProperties fuel api record)).

(** * Inputs of the examples *)

Definition store0 : Store := mkStore [] 0 ∅.

Definition scalar (t : string) : JsonSchema :=
  mkJsonSchema None (Some (js t)) None None None None None None None.

Definition reference (name : string) : JsonSchema :=
  mkJsonSchema None None (Some (js name)) None None None None None None.

Definition object (ps : list (jsstring * JsonSchema)) : JsonSchema :=
  mkJsonSchema None (Some (js "object")) None None None None None (Some ps) None.

Definition array (items_ : JsonSchema) : JsonSchema :=
  mkJsonSchema None (Some (js "array")) None None None None (Some items_) None None.

Definition withId (name : string) (schema : JsonSchema) : JsonSchema :=
  mkJsonSchema (Some (js name)) (type schema) (ref schema) (description schema)
               (required schema) (repeated schema) (items schema) (properties schema)
               (additionalProperties schema).

Definition withRequired (b : bool) (schema : JsonSchema) : JsonSchema :=
  mkJsonSchema (id schema) (type schema) (ref schema) (description schema) (Some b)
               (repeated schema) (items schema) (properties schema)
               (additionalProperties schema).

Definition withProperties (ps : list (jsstring * JsonSchema)) (schema : JsonSchema)
  : JsonSchema :=
  mkJsonSchema (id schema) (type schema) (ref schema) (description schema)
               (required schema) (repeated schema) (items schema) (Some ps)
               (additionalProperties schema).

Definition restMethod (id_ : string) : RestMethod :=
  mkRestMethod (Some (js id_)) None None None None.

Definition emptyApi (resources_ : list (jsstring * RestResource)) : RestDescription :=
  mkRestDescription (Some (js "demo")) (Some (js "v1")) None None None
                    None None None (Some resources_) None.

Definition zetaAlphaMid : list (jsstring * JsonSchema) :=
  [(js "zeta", scalar "string"); (js "alpha", scalar "string"); (js "mid", scalar "string")].

Definition alphaMidZeta : list (jsstring * JsonSchema) :=
  [(js "alpha", scalar "string"); (js "mid", scalar "string"); (js "zeta", scalar "string")].

(** A document with one schema [B] whose property [a] does not say whether
    it is required. *)
Definition plainApi : RestDescription :=
  mkRestDescription (Some (js "demo")) (Some (js "v1")) None None None
    (Some [(js "B", withId "B" (object [(js "a", scalar "string")]))])
    None None None None.

(** A method whose parameter [a] does not say whether it is required. *)
Definition plainMethod : RestMethod :=
  mkRestMethod (Some (js "demo.things.get")) None (Some [(js "a", scalar "string")])
               None None.

(** A resource with one method whose child has one method. *)
Definition parentWithChild : RestResource :=
  mkRestResource (Some [(js "list", restMethod "demo.parent.list")])
    (Some [(js "child", mkRestResource (Some [(js "get", restMethod "demo.parent.child.get")])
                                       None)]).

(** A resource without methods whose child has one method. *)
Definition silentParent : RestResource :=
  mkRestResource None
    (Some [(js "child", mkRestResource (Some [(js "get", restMethod "demo.parent.child.get")])
                                       None)]).

(** A resource with two methods whose child has one method. *)
Definition loudParent : RestResource :=
  mkRestResource
    (Some [(js "list", restMethod "demo.parent.list");
           (js "patch", restMethod "demo.parent.patch")])
    (Some [(js "child", mkRestResource (Some [(js "get", restMethod "demo.parent.child.get")])
                                       None)]).

(** A document whose schema [A] refers to itself. *)
Definition selfApi : RestDescription :=
  mkRestDescription (Some (js "demo")) (Some (js "v1")) None None None
    (Some [(js "A", object [(js "self", reference "A"); (js "n", scalar "integer")])])
    None None None None.

(** A document whose schema [A] refers to itself and throws further down. *)
Definition throwingApi : RestDescription :=
  mkRestDescription (Some (js "demo")) (Some (js "v1")) None None None
    (Some [(js "A", object [(js "self", reference "A"); (js "weird", scalar "weird")])])
    None None None None.

(** A document whose schema [A] refers to itself and also maps every other
    key to [A]. *)
Definition mapOfSelfApi : RestDescription :=
  mkRestDescription (Some (js "demo")) (Some (js "v1")) None None None
    (Some [(js "A",
            mkJsonSchema None (Some (js "object")) None None None None None
                         (Some [(js "self", reference "A")]) (Some (reference "A")))])
    None None None None.

(** A document whose schema [A] refers to itself and has a property of
    type [object] without properties. *)
Definition shapelessApi : RestDescription :=
  mkRestDescription (Some (js "demo")) (Some (js "v1")) None None None
    (Some [(js "A", object [(js "self", reference "A"); (js "x", scalar "object")])])
    None None None None.

(** * Properties *)

Local Close Scope N_scope.

(** ** Strings *)

Lemma js_eqb_eq (a b : jsstring) : js_eqb a b = true ↔ a = b.
Proof.
  revert b. induction a as [|x a IH]; intros [|y b]; simpl; try (split; congruence).
  rewrite andb_true_iff, N.eqb_eq, IH.
  split; [intros [-> ->]; reflexivity | intros [= -> ->]; auto].
Qed.

Lemma js_eqb_refl (a : jsstring) : js_eqb a a = true.
Proof. apply js_eqb_eq. reflexivity. Qed.

Lemma js_eqb_neq (a b : jsstring) : js_eqb a b = false ↔ a ≠ b.
Proof.
  rewrite <- js_eqb_eq. destruct (js_eqb a b); split; congruence.
Qed.

Lemma contains_In (c : N) (s : jsstring) : contains c s = true ↔ In c s.
Proof.
  unfold contains. rewrite existsb_exists. split.
  - intros (x & Hx & Heq). apply N.eqb_eq in Heq. subst. exact Hx.
  - intros H. exists c. split; [exact H | apply N.eqb_refl].
Qed.

Lemma hasSpecial_dec name : {hasSpecial name} + {¬ hasSpecial name}.
Proof.
  unfold hasSpecial.
  destruct (contains 0x2E%N name) eqn:H1; [left; left; apply contains_In, H1|].
  destruct (contains 0x2D%N name) eqn:H2; [left; right; left; apply contains_In, H2|].
  destruct (contains 0x40%N name) eqn:H3; [left; right; right; apply contains_In, H3|].
  right. rewrite <- !contains_In. intros [H | [H | H]]; congruence.
Qed.

Lemma formatPropertyName_special name :
  hasSpecial name → formatPropertyName name = dquote ++ name ++ dquote.
Proof.
  unfold hasSpecial, formatPropertyName. rewrite <- !contains_In.
  intros [-> | [-> | ->]]; rewrite ?orb_true_r; reflexivity.
Qed.

Lemma formatPropertyName_plain name :
  ¬ hasSpecial name → formatPropertyName name = name.
Proof.
  unfold hasSpecial, formatPropertyName. rewrite <- !contains_In. intros H.
  destruct (contains 0x2E%N name), (contains 0x2D%N name), (contains 0x40%N name);
    simpl; try reflexivity; exfalso; apply H; auto.
Qed.

(** ** The monad *)

Lemma bind_run {A B} (m : M A) (f : A → M B) (s : Store) :
  (m ≫= f) s = match m s with
               | Ret a s' => f a s'
               | Throw e s' => Throw e s'
               | OutOfFuel => OutOfFuel
               end.
Proof. reflexivity. Qed.

Lemma forEachOrdered_None {T} (iterator : T → jsstring → nat → M unit) :
  forEachOrdered None iterator = skip.
Proof. reflexivity. Qed.

Lemma lookupKey_In {T} (key : jsstring) (record : list (jsstring * T)) (v : T) :
  lookupKey key record = Some v → In (key, v) record.
Proof.
  induction record as [|[k x] r IH]; simpl; [discriminate|].
  destruct (js_eqb k key) eqn:E.
  - apply js_eqb_eq in E. intros [= ->]. left. congruence.
  - intros H. right. auto.
Qed.

(** ** Computations that only drive the writer *)

Create HintDb writer.

Lemma writerOnly_ret {A} (a : A) : writerOnly (mret a : M A).
Proof.
  intros s. split; [exists []; simpl; rewrite app_nil_r; reflexivity|].
  split; [intros a' s' [= _ <-]; reflexivity | reflexivity].
Qed.

Lemma writerOnly_skip : writerOnly skip.
Proof. apply writerOnly_ret. Qed.

Lemma writerOnly_throw {A} (e : exn) : writerOnly (throw e : M A).
Proof.
  intros s. split; [exists []; simpl; rewrite app_nil_r; reflexivity|].
  split; [discriminate | reflexivity].
Qed.

Lemma writerOnly_lift {A} (r : exn + A) : writerOnly (lift r).
Proof. destruct r; [apply writerOnly_throw | apply writerOnly_ret]. Qed.

Lemma writerOnly_write chunk : writerOnly (write chunk).
Proof.
  intros s. split; [exists chunk; reflexivity|].
  split; [intros a' s' [= _ <-]; reflexivity | reflexivity].
Qed.

Lemma writerOnly_startIndentedLine chunk : writerOnly (startIndentedLine chunk).
Proof.
  intros s. split; [exists (tabs (indent s) ++ chunk); reflexivity|].
  split; [intros a' s' [= _ <-]; reflexivity | reflexivity].
Qed.

Lemma writerOnly_bind {A B} (m : M A) (f : A → M B) :
  writerOnly m → (∀ a, writerOnly (f a)) → writerOnly (m ≫= f).
Proof.
  intros Hm Hf s. destruct (Hm s) as ([t Ht] & Hi & Hx). split; [|split].
  - rewrite bind_run. destruct (m s) as [a s'| e s' |]; simpl in *; try discriminate.
    + destruct (Hf a s') as [[t' Ht'] _]. injection Ht as Ht. rewrite Ht in Ht'.
      exists (t ++ t'). rewrite Ht', app_assoc. reflexivity.
    + exists t. exact Ht.
  - intros b s2. rewrite bind_run. destruct (m s) as [a s'| e s' |]; try discriminate.
    intros E. destruct (Hf a s') as (_ & Hi' & _).
    rewrite (Hi' _ _ E). apply (Hi a s' eq_refl).
  - intros X. rewrite !bind_run, Hx. destruct (m s) as [a s'| e s' |]; simpl; try reflexivity.
    apply (Hf a s').
Qed.

#[global] Hint Resolve writerOnly_ret writerOnly_skip writerOnly_throw writerOnly_lift
  writerOnly_write writerOnly_startIndentedLine : writer.
#[global] Hint Extern 2 (writerOnly (_ ≫= _)) =>
  apply writerOnly_bind; [|intros ?] : writer.

Lemma writerOnly_forOf {T} (xs : list T) (body : T → nat → M unit) :
  (∀ x i, In x xs → writerOnly (body x i)) → ∀ i, writerOnly (forOf xs i body).
Proof.
  induction xs as [|x xs IH]; intros H i; simpl; [auto with writer|].
  apply writerOnly_bind; [apply H; left; reflexivity|].
  intros _. apply IH. intros. apply H. right. assumption.
Qed.

Lemma writerOnly_forEachOrdered {T} (record : option (list (jsstring * T)))
    (iterator : T → jsstring → nat → M unit) :
  (∀ r k v i, record = Some r → In (k, v) r → writerOnly (iterator v k i)) →
  writerOnly (forEachOrdered record iterator).
Proof.
  intros H. destruct record as [r|]; unfold forEachOrdered; [|auto with writer].
  apply writerOnly_forOf. intros key i _.
  destruct (lookupKey key r) as [v|] eqn:E; [|auto with writer].
  eapply H; [reflexivity | apply lookupKey_In, E].
Qed.

Lemma writerOnly_writeLine chunk : writerOnly (writeLine chunk).
Proof. unfold writeLine. auto with writer. Qed.

Lemma writerOnly_endLine chunk : writerOnly (endLine chunk).
Proof. unfold endLine. auto with writer. Qed.

Lemma writerOnly_beginNewLine chunk : writerOnly (beginNewLine chunk).
Proof. unfold beginNewLine. auto with writer. Qed.

Lemma writerOnly_beginLine chunk : writerOnly (beginLine chunk).
Proof. unfold beginLine. auto with writer. Qed.

#[global] Hint Resolve writerOnly_writeLine writerOnly_endLine writerOnly_beginNewLine
  writerOnly_beginLine : writer.

(** A block between an opening and a closing text, one level deeper. *)
Lemma writerOnly_nested (context : M unit) (opening : Store → jsstring)
    (closing : nat → jsstring) (m : M unit) :
  (∀ s, m s = match context (mkStore (buffer s ++ opening s) (S (indent s))
                                     (seenSchemaRefs s)) with
              | Ret _ s1 =>
                  Ret tt (mkStore (buffer s1 ++ closing (pred (indent s1)))
                                  (pred (indent s1)) (seenSchemaRefs s1))
              | Throw e s1 => Throw e s1
              | OutOfFuel => OutOfFuel
              end) →
  (∀ X s, opening (withSeen X s) = opening s) →
  writerOnly context → writerOnly m.
Proof.
  intros Hrun Hop Hc s. rewrite Hrun.
  destruct (Hc (mkStore (buffer s ++ opening s) (S (indent s)) (seenSchemaRefs s)))
    as ([t Ht] & Hi & Hx).
  split; [|split].
  - destruct (context _) as [[] s1|e s1|]; cbn in *; try discriminate;
      injection Ht as Ht; eexists; rewrite Ht, <- !app_assoc; reflexivity.
  - intros a s'. destruct (context _) as [[] s1|e s1|]; try discriminate.
    intros [= _ <-]. cbn. rewrite (Hi _ _ eq_refl). reflexivity.
  - intros X. rewrite Hrun. cbn [withSeen buffer indent seenSchemaRefs].
    rewrite Hop. specialize (Hx X). unfold withSeen in Hx at 1.
    cbn [buffer indent seenSchemaRefs] in Hx. rewrite Hx.
    destruct (context _) as [[] s1|e s1|]; reflexivity.
Qed.

Lemma scope_run (context : M unit) (a b : jsstring) (s : Store) :
  scope context a b s
  = match context (mkStore (buffer s ++ a) (S (indent s)) (seenSchemaRefs s)) with
    | Ret _ s1 =>
        Ret tt (mkStore (buffer s1 ++ newLine ++ tabs (pred (indent s1)) ++ b)
                        (pred (indent s1)) (seenSchemaRefs s1))
    | Throw e s1 => Throw e s1
    | OutOfFuel => OutOfFuel
    end.
Proof.
  unfold scope. rewrite bind_run. cbn [write]. rewrite bind_run.
  cbn [indentBy buffer indent seenSchemaRefs]. rewrite bind_run.
  destruct (context _) as [[] s1|e s1|]; try reflexivity.
  rewrite bind_run. cbn [indentBy]. rewrite bind_run.
  unfold startIndentedLine, write. cbn [buffer indent seenSchemaRefs].
  rewrite <- !app_assoc. reflexivity.
Qed.

Lemma braces_run (text : jsstring) (context : M unit) (s : Store) :
  braces text context s
  = match context (mkStore (buffer s ++ tabs (indent s) ++ text ++ js " {" ++ newLine)
                           (S (indent s)) (seenSchemaRefs s)) with
    | Ret _ s1 =>
        Ret tt (mkStore (buffer s1 ++ tabs (pred (indent s1)) ++ js "}" ++ newLine)
                        (pred (indent s1)) (seenSchemaRefs s1))
    | Throw e s1 => Throw e s1
    | OutOfFuel => OutOfFuel
    end.
Proof.
  unfold braces. rewrite bind_run. unfold writeLine at 1, startIndentedLine at 1.
  cbn [write]. rewrite bind_run. cbn [indentBy buffer indent seenSchemaRefs].
  rewrite bind_run, <- !app_assoc.
  destruct (context _) as [[] s1|e s1|]; reflexivity.
Qed.

Lemma anonymysType_run (context : M unit) (s : Store) :
  anonymysType context s
  = match context (mkStore (buffer s ++ js "{" ++ newLine) (S (indent s))
                           (seenSchemaRefs s)) with
    | Ret _ s1 =>
        Ret tt (mkStore (buffer s1 ++ tabs (pred (indent s1)) ++ js "}")
                        (pred (indent s1)) (seenSchemaRefs s1))
    | Throw e s1 => Throw e s1
    | OutOfFuel => OutOfFuel
    end.
Proof.
  unfold anonymysType. rewrite bind_run. unfold endLine. rewrite bind_run.
  cbn [write]. rewrite bind_run. cbn [indentBy buffer indent seenSchemaRefs].
  rewrite bind_run, <- !app_assoc.
  destruct (context _) as [[] s1|e s1|]; reflexivity.
Qed.

Lemma writerOnly_braces text context :
  writerOnly context → writerOnly (braces text context).
Proof.
  apply (writerOnly_nested context
           (fun s => tabs (indent s) ++ text ++ js " {" ++ newLine)
           (fun n => tabs n ++ js "}" ++ newLine)); [apply braces_run | reflexivity].
Qed.

Lemma writerOnly_anonymysType context :
  writerOnly context → writerOnly (anonymysType context).
Proof.
  apply (writerOnly_nested context (fun _ => js "{" ++ newLine)
           (fun n => tabs n ++ js "}")); [apply anonymysType_run | reflexivity].
Qed.

Lemma writerOnly_scope context a b :
  writerOnly context → writerOnly (scope context a b).
Proof.
  apply (writerOnly_nested context (fun _ => a)
           (fun n => newLine ++ tabs n ++ b)); [apply scope_run | reflexivity].
Qed.

Lemma writerOnly_interface name context :
  writerOnly context → writerOnly (interface name context).
Proof. apply writerOnly_braces. Qed.

Lemma writerOnly_namespace name context :
  writerOnly context → writerOnly (namespace name context).
Proof. apply writerOnly_braces. Qed.

Lemma writerOnly_declareNamespace name context :
  writerOnly context → writerOnly (declareNamespace name context).
Proof. intros. unfold declareNamespace. auto using writerOnly_braces with writer. Qed.

Lemma writerOnly_referenceTypes t : writerOnly (referenceTypes t).
Proof. unfold referenceTypes. auto with writer. Qed.

Lemma writerOnly_comment text avoid : writerOnly (comment text avoid).
Proof.
  unfold comment. destruct text as [[|c text]|]; auto with writer.
  destruct (commentLines (c :: text)) as [|l [|l' ls]]; auto with writer.
  - destruct avoid; auto with writer.
  - apply writerOnly_bind; [auto with writer|]. intros _.
    apply writerOnly_bind; [|auto with writer].
    apply writerOnly_forOf. intros x i _.
    destruct avoid; [destruct (i =? _)%nat|]; destruct x; auto with writer.
Qed.

Lemma writerOnly_writeChunk t : writerOnlyType t → writerOnly (writeChunk t).
Proof. destruct t; simpl; auto with writer. Qed.

Lemma writerOnly_property name t required :
  writerOnlyType t → writerOnly (property name t required).
Proof. destruct t; simpl; intros; auto 10 with writer. Qed.

#[global] Hint Resolve writerOnly_braces writerOnly_anonymysType writerOnly_scope
  writerOnly_interface writerOnly_namespace writerOnly_declareNamespace
  writerOnly_referenceTypes writerOnly_comment writerOnly_writeChunk
  writerOnly_property writerOnly_forEachOrdered : writer.

Lemma writerOnly_method name parameters returnType singleLine :
  Forall (fun p => writerOnlyType (snd p)) parameters →
  writerOnly (method name parameters returnType singleLine).
Proof.
  intros H. unfold method.
  apply writerOnly_bind; [auto with writer|]. intros _.
  apply writerOnly_bind; [|auto with writer].
  apply writerOnly_forOf. intros p i Hin.
  rewrite List.Forall_forall in H. specialize (H p Hin).
  destruct (_ <? _)%nat, singleLine; auto 10 with writer.
Qed.

Lemma writerOnly_ext {A} (m m' : M A) :
  (∀ s, m s = m' s) → writerOnly m' → writerOnly m.
Proof.
  intros E H s. rewrite !E. destruct (H s) as (Ht & Hi & Hx).
  split; [exact Ht|]. split; [exact Hi|].
  intros X. rewrite E. apply Hx.
Qed.

Lemma writerOnly_bind_lift {A B} (r : exn + A) (f : A → M B) :
  (∀ a, r = inr a → writerOnly (f a)) → writerOnly (lift r ≫= f).
Proof.
  intros H. destruct r as [e|a].
  - apply (writerOnly_ext _ (throw e)); [reflexivity | auto with writer].
  - apply (writerOnly_ext _ (f a)); [reflexivity | auto].
Qed.

Lemma writerOnly_emitProperty key data rendered :
  (∀ t, rendered = inr t → writerOnlyType t) →
  writerOnly (emitProperty key data rendered).
Proof.
  intros H. unfold emitProperty.
  apply writerOnly_bind; [destruct (truthy _); auto with writer|]. intros _.
  apply writerOnly_bind_lift. intros t Ht. auto with writer.
Qed.

(** ** Induction on schemas and resources *)

Lemma list_sum_In {T} (f : T → nat) (x : T) (l : list T) :
  In x l → f x ≤ list_sum (List.map f l).
Proof.
  induction l as [|y l IH]; simpl; [tauto|].
  intros [->|H]; [lia | specialize (IH H); lia].
Qed.

Lemma size_items schema i : items schema = Some i → schemaSize i < schemaSize schema.
Proof. destruct schema; simpl. intros ->. lia. Qed.

Lemma size_additionalProperties schema a :
  additionalProperties schema = Some a → schemaSize a < schemaSize schema.
Proof. destruct schema; simpl. intros ->. lia. Qed.

Lemma size_properties schema ps k p :
  properties schema = Some ps → In (k, p) ps → schemaSize p < schemaSize schema.
Proof.
  destruct schema; simpl. intros -> H.
  pose proof (list_sum_In (fun kv => schemaSize (snd kv)) (k, p) ps H). simpl in *. lia.
Qed.

Lemma schema_size_ind (P : JsonSchema → Prop) :
  (∀ schema, (∀ sub, schemaSize sub < schemaSize schema → P sub) → P schema) → ∀ schema, P schema.
Proof.
  intros H schema. remember (schemaSize schema) as n eqn:E. revert schema E.
  induction n as [n IH] using lt_wf_ind. intros schema ->.
  apply H. intros sub Hlt. eapply IH; [exact Hlt | reflexivity].
Qed.

Lemma resourceSize_child resource rs k child :
  resources resource = Some rs → In (k, child) rs →
  resourceSize child < resourceSize resource.
Proof.
  destruct resource; simpl. intros -> H.
  pose proof (list_sum_In (fun kv => resourceSize (snd kv)) (k, child) rs H).
  simpl in *. lia.
Qed.

Lemma resource_size_ind (P : RestResource → Prop) :
  (∀ r, (∀ sub, resourceSize sub < resourceSize r → P sub) → P r) → ∀ r, P r.
Proof.
  intros H r. remember (resourceSize r) as n eqn:E. revert r E.
  induction n as [n IH] using lt_wf_ind. intros r ->.
  apply H. intros sub Hlt. eapply IH; [exact Hlt | reflexivity].
Qed.

(** ** The type renderer only drives the writer *)

Lemma getType_writerOnly schemas node :
  ∀ t, getType node schemas = inr t → writerOnlyType t.
Proof.
  induction node as [node IH] using schema_size_ind. intros t.
  pose proof (size_items node) as Hi.
  pose proof (size_additionalProperties node) as Ha.
  pose proof (size_properties node) as Hp.
  destruct node as [i ty r d rq rp it ps ap].
  cbn [getType id type ref description required repeated items properties
       additionalProperties] in *.
  set (scalar := if truthy ty then _ else _).
  assert (Hscalar : ∀ t, scalar = inr t → writerOnlyType t).
  { subst scalar. intros t'. destruct (truthy ty); [intros [= <-]; exact I|].
    destruct (truthy r); [|discriminate].
    destruct (checkExists schemas None None); [discriminate|].
    destruct (lookupKey _ _); [|discriminate].
    destruct (isEmptySchema _); intros [= <-]; exact I. }
  destruct (strictEq ty (js "array")).
  { destruct it as [it|]; [|simpl; discriminate].
    specialize (IH it (Hi it eq_refl)).
    destruct (getType it schemas) as [e|[c|c]]; [discriminate| |]; intros [= <-]; simpl; [exact I|].
    specialize (IH _ eq_refl). simpl in IH. auto with writer. }
  destruct (strictEq ty (js "object")); [|apply Hscalar].
  destruct ps as [ps|].
  { intros [= <-]. simpl. apply writerOnly_anonymysType.
    apply writerOnly_bind.
    - apply writerOnly_forEachOrdered. intros rcd k v idx [= <-] Hin.
      apply in_map_iff in Hin. destruct Hin as ([k' p] & [= <- <-] & Hin). simpl.
      apply writerOnly_emitProperty. apply IH. eapply Hp; [reflexivity | exact Hin].
    - intros _. destruct ap as [ap|]; [|auto with writer].
      apply writerOnly_bind_lift. intros t' Ht'.
      apply writerOnly_property. eapply IH; [|exact Ht']. apply Ha. reflexivity. }
  destruct ap as [ap|]; [|apply Hscalar].
  intros [= <-]. simpl. apply writerOnly_bind_lift. intros t' Ht'.
  assert (writerOnlyType t') by (eapply IH; [|exact Ht']; apply Ha; reflexivity).
  auto 10 with writer.
Qed.

#[global] Hint Resolve writerOnly_emitProperty getType_writerOnly writerOnly_bind_lift
  writerOnly_method : writer.
#[global] Hint Extern 1 (writerOnlyType (Inline _)) => exact I : writer.

Lemma writerOnly_bind_post {A B} (Q : A → Prop) (m : M A) (f : A → M B) :
  writerOnly m → (∀ s a s', m s = Ret a s' → Q a) →
  (∀ a, Q a → writerOnly (f a)) → writerOnly (m ≫= f).
Proof.
  intros Hm HQ Hf s. destruct (Hm s) as ([t Ht] & Hi & Hx). specialize (HQ s).
  split; [|split].
  - rewrite bind_run.
    destruct (m s) as [a s'| e s' |]; simpl in *; try discriminate.
    + destruct (Hf a (HQ _ _ eq_refl) s') as [[t' Ht'] _].
      injection Ht as Ht. rewrite Ht in Ht'.
      exists (t ++ t'). rewrite Ht', app_assoc. reflexivity.
    + exists t. exact Ht.
  - intros b s2. rewrite bind_run. destruct (m s) as [a s'| e s' |]; try discriminate.
    intros E. destruct (Hf a (HQ _ _ eq_refl) s') as (_ & Hi' & _).
    rewrite (Hi' _ _ E). apply (Hi a s' eq_refl).
  - intros X. rewrite !bind_run, Hx.
    destruct (m s) as [a s'| e s' |]; simpl; try reflexivity.
    apply (Hf a (HQ _ _ eq_refl) s').
Qed.

(** ** The declaration emitter only drives the writer *)

Lemma writerOnly_writeMethod parameters_ schemas method_ name :
  writerOnly (writeMethod parameters_ schemas method_ name).
Proof.
  unfold writeMethod.
  apply writerOnly_bind; [destruct (truthy _); auto with writer|]. intros _.
  apply writerOnly_bind_post with
    (Q := Forall (fun p : jsstring * RenderedType => writerOnlyType (snd p))).
  { destruct (request method_) as [rq|]; [|auto with writer].
    destruct (truthy (ref rq)); [|auto with writer].
    apply writerOnly_bind_lift. intros sc _.
    destruct (lookupKey _ sc); auto with writer. }
  { intros s a s'. destruct (request method_) as [rq|]; [|intros [= <- _]; constructor].
    destruct (truthy (ref rq)); [|intros [= <- _]; constructor].
    rewrite bind_run. destruct (lift _ s) as [sc s1| |]; try discriminate.
    destruct (lookupKey _ sc); [|discriminate].
    intros [= <- _]. repeat constructor. }
  intros requestBody_ Hbody.
  apply writerOnly_bind_lift. intros id_ _.
  apply writerOnly_bind_lift. intros returnType _.
  apply writerOnly_method. constructor; [|exact Hbody].
  cbn [snd writerOnlyType].
  apply writerOnly_anonymysType, writerOnly_forEachOrdered. intros.
  apply writerOnly_emitProperty, getType_writerOnly.
Qed.

Lemma writerOnly_writeResource parameters_ schemas nested resource resourceName :
  writerOnly nested →
  writerOnly (writeResource parameters_ schemas nested resource resourceName).
Proof.
  intros Hn. unfold writeResource.
  apply writerOnly_bind_lift. intros tn _.
  apply writerOnly_bind; [exact Hn|]. intros _.
  apply writerOnly_interface.
  apply writerOnly_bind.
  - apply writerOnly_forEachOrdered. intros. apply writerOnly_writeMethod.
  - intros _. apply writerOnly_forEachOrdered. intros.
    apply writerOnly_bind_lift. intros. auto with writer.
Qed.

Lemma writerOnly_writeNestedResources parameters_ schemas resource :
  writerOnly (writeNestedResources parameters_ schemas resource).
Proof.
  induction resource as [resource IH] using resource_size_ind.
  pose proof (resourceSize_child resource) as Hc.
  destruct resource as [ms rs]. cbn [writeNestedResources resources] in *.
  apply writerOnly_forEachOrdered. intros r k v i Hr Hin.
  destruct rs as [rs|]; [|discriminate]. injection Hr as <-.
  apply in_map_iff in Hin. destruct Hin as ([k' child] & [= <- <-] & Hin).
  cbn [fst snd]. apply writerOnly_writeResource. apply IH.
  eapply Hc; [reflexivity | exact Hin].
Qed.

Lemma writerOnly_writeResources resources_ parameters_ schemas :
  writerOnly (writeResources resources_ parameters_ schemas).
Proof.
  unfold writeResources.
  apply writerOnly_forEachOrdered. intros r k v i Hr Hin.
  destruct resources_ as [rs|]; [|discriminate]. injection Hr as <-.
  apply in_map_iff in Hin. destruct Hin as ([k' child] & [= <- <-] & Hin).
  cbn [fst snd]. apply writerOnly_writeResource, writerOnly_writeNestedResources.
Qed.

Ltac writer_step :=
  lazymatch goal with
  | |- writerOnly (_ ≫= _) =>
      apply writerOnly_bind;
      [solve [auto with writer | apply writerOnly_method; repeat constructor] | intros _]
  end.

Lemma writerOnly_processApiBody api url : writerOnly (processApiBody api url).
Proof.
  unfold processApiBody.
  repeat writer_step.
  apply writerOnly_declareNamespace.
  repeat writer_step.
  apply writerOnly_bind_lift. intros name _.
  apply writerOnly_namespace.
  apply writerOnly_bind.
  { apply writerOnly_forEachOrdered. intros r k schema i _ _.
    apply writerOnly_bind_lift. intros schemaId _.
    destruct (negb _); [|auto with writer].
    apply writerOnly_interface. apply writerOnly_bind.
    - apply writerOnly_forEachOrdered. intros.
      apply writerOnly_emitProperty, getType_writerOnly.
    - intros _. destruct (additionalProperties schema); [|auto with writer].
      apply writerOnly_bind_lift. intros t Ht.
      apply writerOnly_property. eapply getType_writerOnly, Ht. }
  intros _. apply writerOnly_bind; [apply writerOnly_writeResources|]. intros _.
  apply writerOnly_forEachOrdered. intros r k v i _ _.
  destruct (negb _); [|auto with writer].
  apply writerOnly_bind; [auto with writer|]. intros _.
  apply writerOnly_bind_lift. intros. auto with writer.
Qed.

(** ** C7: the declaration file does not depend on what came before *)

Lemma processApi_seen api url s :
  ∀ s', finalStore (processApi api url s) = Some s' →
        seenSchemaRefs s' = seenSchemaRefs s.
Proof.
  intros s'. unfold processApi. rewrite bind_run.
  destruct (forallb _ _); cbn [skip mret M_ret throw].
  - rewrite bind_run. cbn [newWriter].
    destruct (writerOnly_processApiBody api url (mkStore [] 0 (seenSchemaRefs s)))
      as (_ & _ & Hx).
    specialize (Hx (seenSchemaRefs s)). unfold withSeen in Hx. cbn in Hx.
    rewrite Hx. destruct (processApiBody _ _ _); cbn; intros [= <-]; reflexivity.
  - cbn. intros [= <-]. reflexivity.
Qed.

Lemma processApi_total api url s : ∃ s', finalStore (processApi api url s) = Some s'.
Proof.
  unfold processApi. rewrite bind_run.
  destruct (forallb _ _); cbn [skip mret M_ret throw]; [|eexists; reflexivity].
  rewrite bind_run. cbn [newWriter].
  destruct (writerOnly_processApiBody api url (mkStore [] 0 (seenSchemaRefs s)))
    as [[t Ht] _].
  destruct (processApiBody _ _ _); cbn in *; try discriminate; eexists; reflexivity.
Qed.

(** C7.  Generating the declaration file is deterministic: the run always
    ends (with the file written or with an error); a second run on the same
    document, started from whatever store the first run left behind, ends
    the very same way with the very same text; and the guard set of the
    stub values, the only state of [App], has no part in it. *)
Theorem processApi_deterministic (api : RestDescription) (url : jsstring) (s : Store) :
  (∃ s1, finalStore (processApi api url s) = Some s1 ∧
         processApi api url s1 = processApi api url s) ∧
  (∀ X, processApi api url (withSeen X s)
        = mapStore (withSeen X) (processApi api url s)).
Proof.
  split.
  - destruct (processApi_total api url s) as [s1 H1]. exists s1. split; [exact H1|].
    pose proof (processApi_seen api url s s1 H1) as Hseen.
    revert H1. unfold processApi. rewrite !bind_run.
    destruct (forallb _ _); cbn [skip mret M_ret throw].
    + intros _. rewrite !bind_run. cbn [newWriter]. rewrite Hseen. reflexivity.
    + cbn. intros [= <-]. reflexivity.
  - intros X. unfold processApi. rewrite !bind_run.
    destruct (forallb _ _); cbn [skip mret M_ret throw]; [|reflexivity].
    rewrite !bind_run. cbn [newWriter withSeen seenSchemaRefs].
    destruct (writerOnly_processApiBody api url (mkStore [] 0 (seenSchemaRefs s)))
      as (_ & _ & Hx).
    apply (Hx X).
Qed.

(** ** Required and optional properties (C1) *)

Lemma plainWrite_skip : plainWrite skip.
Proof. intros s. exists []. rewrite app_nil_r. destruct s; reflexivity. Qed.

Lemma plainWrite_write chunk : plainWrite (write chunk).
Proof. intros s. exists chunk. reflexivity. Qed.

Lemma plainWrite_startIndentedLine chunk : plainWrite (startIndentedLine chunk).
Proof. intros s. exists (tabs (indent s) ++ chunk). reflexivity. Qed.

Lemma plainWrite_bind (m : M unit) (f : unit → M unit) :
  plainWrite m → (∀ a, plainWrite (f a)) → plainWrite (m ≫= f).
Proof.
  intros Hm Hf s. destruct (Hm s) as [t Ht]. rewrite bind_run, Ht.
  destruct (Hf tt (mkStore (buffer s ++ t) (indent s) (seenSchemaRefs s))) as [t' Ht'].
  exists (t ++ t'). rewrite Ht'. cbn. rewrite app_assoc. reflexivity.
Qed.

Lemma plainWrite_forOf {T} (xs : list T) (body : T → nat → M unit) :
  (∀ x i, plainWrite (body x i)) → ∀ i, plainWrite (forOf xs i body).
Proof.
  intros H. induction xs as [|x xs IH]; intros i; cbn [forOf].
  - apply plainWrite_skip.
  - apply plainWrite_bind; [apply H | intros _; apply IH].
Qed.

Lemma plainWrite_writeLine chunk : plainWrite (writeLine chunk).
Proof. apply plainWrite_startIndentedLine. Qed.

Lemma plainWrite_comment text avoid : plainWrite (comment text avoid).
Proof.
  unfold comment. destruct text as [[|c text]|]; try apply plainWrite_skip.
  destruct (commentLines (c :: text)) as [|l [|l' ls]].
  - apply plainWrite_skip.
  - destruct avoid; apply plainWrite_startIndentedLine.
  - apply plainWrite_bind; [apply plainWrite_writeLine|]. intros _.
    apply plainWrite_bind; [|intros _; apply plainWrite_writeLine].
    apply plainWrite_forOf. intros x i.
    destruct avoid; [destruct (i =? _)|]; destruct x; apply plainWrite_startIndentedLine.
Qed.

Lemma emitProperty_text key data type s :
  writerOnlyType type →
  ∃ commentText rest,
    emitted (emitProperty key data (inr type) s) =
    Some (buffer s ++ commentText ++ tabs (indent s) ++ formatPropertyName key
            ++ optionalMark (required data) ++ js ": " ++ rest).
Proof.
  intros Hty. unfold emitProperty. rewrite bind_run.
  assert (Hc : plainWrite (if truthy (description data)
                           then comment (Some (formatComment (show (description data)))) false
                           else skip)).
  { destruct (truthy _); [apply plainWrite_comment | apply plainWrite_skip]. }
  destruct (Hc s) as [c ->]. exists c.
  rewrite bind_run. cbn [lift mret M_ret].
  assert (Hq : (if orFalse (required data) then [] else js "?")
               = optionalMark (required data)).
  { destruct (required data) as [[|]|]; reflexivity. }
  destruct type as [text|emit]; cbn [property].
  - exists (text ++ js ";" ++ newLine).
    unfold writeLine, startIndentedLine, write. cbn [emitted buffer indent].
    rewrite Hq, <- !app_assoc. reflexivity.
  - rewrite bind_run. unfold startIndentedLine at 1. unfold write at 1.
    cbn [buffer indent seenSchemaRefs]. rewrite bind_run.
    match goal with |- context [emit ?st] => destruct (Hty st) as ([t Ht] & _);
      destruct (emit st) as [[] s'|e s'|] eqn:E end; cbn in Ht; try discriminate.
    + injection Ht as Ht. exists (t ++ js ";" ++ newLine).
      unfold endLine. rewrite bind_run. unfold write. cbn. rewrite Ht, Hq.
      rewrite <- !app_assoc. reflexivity.
    + injection Ht as Ht. exists t. cbn. rewrite Ht, Hq, <- !app_assoc. reflexivity.
Qed.

(** C1, as the code has it.  Wherever the properties of a record are
    rendered (the interface of a schema, an anonymous structural type, the
    request parameter of a method), the line of a property starts with its
    formatted name, then [?] unless its schema has [required = true] (so
    also when [required] is absent), then the colon and the type. *)
Theorem emitProperty_optional_mark (key : jsstring) (data : JsonSchema)
    (schemas : option (list (jsstring * JsonSchema))) (type : RenderedType) (s : Store) :
  getType data schemas = inr type →
  ∃ commentText rest,
    emitted (emitProperty key data (getType data schemas) s) =
    Some (buffer s ++ commentText ++ tabs (indent s) ++ formatPropertyName key
            ++ optionalMark (required data) ++ js ": " ++ rest).
Proof.
  intros H. rewrite H. apply emitProperty_text. eapply getType_writerOnly, H.
Qed.

Lemma emitProperty_optional_mark_witness :
  ∃ commentText rest,
    emitted (emitProperty (js "a") (withRequired false (scalar "string"))
               (getType (withRequired false (scalar "string")) None) store0) =
    Some (buffer store0 ++ commentText ++ tabs (indent store0)
            ++ formatPropertyName (js "a")
            ++ optionalMark (required (withRequired false (scalar "string")))
            ++ js ": " ++ rest).
Proof.
  apply (emitProperty_optional_mark (js "a") (withRequired false (scalar "string")) None
           (Inline (js "string")) store0).
  reflexivity.
Defined.

(** C1 fails for a property without [required]: in the anonymous type of
    an object, in the interface of a schema and in the request parameter of
    a method, a property [a] that says nothing about [required] is written
    [a?: string;], not [a: string;]. *)
Lemma required_absent_is_optional :
  required (scalar "string") = None ∧
  (∃ emit,
      getType (object [(js "a", scalar "string")]) None = inr (Block emit) ∧
      emitted (emit store0)
      = Some (js "{" ++ newLine ++ js "    a?: string;" ++ newLine ++ js "}") ∧
      emitted (emit store0)
      ≠ Some (js "{" ++ newLine ++ js "    a: string;" ++ newLine ++ js "}")) ∧
  option_map (fun text => (occurrences (js "interface B {" ++ newLine
                                          ++ js "            a?: string;") text,
                           occurrences (js "a: string;") text))
             (emitted (processApi plainApi [] store0))
  = Some (1, 0) ∧
  emitted (writeMethod [] (Some []) plainMethod (js "get") store0)
  = Some (js "get(request: {" ++ newLine ++ js "    a?: string;" ++ newLine
            ++ js "}): Request<void>;" ++ newLine).
Proof.
  split; [reflexivity|]. split; [|split].
  - eexists. split; [reflexivity|]. split.
    + vm_compute. reflexivity.
    + vm_compute. discriminate.
  - vm_compute. reflexivity.
  - vm_compute. reflexivity.
Qed.

(** ** References (C6) *)

Lemma isEmptySchema_spec schema :
  isEmptySchema schema = true ↔
  (properties schema = None ∨ properties schema = Some []) ∧
  additionalProperties schema = None.
Proof.
  unfold isEmptySchema.
  destruct (properties schema) as [[|p ps]|], (additionalProperties schema) as [a|];
    cbn; split; try discriminate; try tauto;
    try (intros [[H|H] H']; discriminate).
  all: try (intros _; split; [auto | reflexivity]).
Qed.

(** C6.  A reference node (a schema with [$ref] and no [type]) whose
    schema is in the table renders as [any] when that schema is empty (no
    properties, no additionalProperties), whatever the name, and as the bare
    name otherwise; in both cases as inline text, the body of the schema is
    not written. *)
Theorem getType_reference (node : JsonSchema) (schemas : list (jsstring * JsonSchema))
    (name : jsstring) (referenced : JsonSchema) :
  truthy (type node) = false →
  ref node = Some name → name ≠ [] →
  lookupKey name schemas = Some referenced →
  (isEmptySchema referenced = true ↔
     (properties referenced = None ∨ properties referenced = Some []) ∧
     additionalProperties referenced = None) ∧
  getType node (Some schemas)
  = inr (Inline (if isEmptySchema referenced then js "any" else name)).
Proof.
  intros Hty Hr Hne Hl. split; [apply isEmptySchema_spec|].
  destruct node as [i ty r d rq rp it ps ap]. cbn in Hty, Hr. subst r.
  assert (Ha : strictEq ty (js "array") = false).
  { destruct ty as [[|c t]|]; try reflexivity. discriminate. }
  assert (Ho : strictEq ty (js "object") = false).
  { destruct ty as [[|c t]|]; try reflexivity. discriminate. }
  cbn [getType type ref items properties additionalProperties repeated].
  rewrite Ha, Ho, Hty.
  assert (Ht : truthy (Some name) = true) by (destruct name; [congruence | reflexivity]).
  rewrite Ht. cbn [checkExists show]. rewrite Hl.
  destruct (isEmptySchema referenced); reflexivity.
Qed.

Lemma getType_reference_witness :
  (isEmptySchema (object []) = true ↔
     (properties (object []) = None ∨ properties (object []) = Some []) ∧
     additionalProperties (object []) = None) ∧
  getType (reference "Anything") (Some [(js "Anything", object [])])
  = inr (Inline (if isEmptySchema (object []) then js "any" else js "Anything")).
Proof.
  apply (getType_reference (reference "Anything") [(js "Anything", object [])]
           (js "Anything") (object [])).
  - reflexivity.
  - reflexivity.
  - vm_compute. discriminate.
  - vm_compute. reflexivity.
Defined.

(** ** Property names (C10) *)

(** C10.  [formatPropertyName] wraps a name in double quotes exactly when
    it contains [.], [-] or [@] and returns every other name unchanged, and
    [property] starts the line of a property with the name so formatted. *)
Theorem formatPropertyName_quotes (name : jsstring) :
  (formatPropertyName name = dquote ++ name ++ dquote ↔ hasSpecial name) ∧
  (formatPropertyName name = name ↔ ¬ hasSpecial name) ∧
  (∀ (text : jsstring) (required : bool) (s : Store),
      property name (Inline text) required s =
      Ret tt (mkStore (buffer s ++ tabs (indent s) ++ formatPropertyName name
                         ++ (if required then [] else js "?") ++ js ": "
                         ++ text ++ js ";" ++ newLine)
                      (indent s) (seenSchemaRefs s))) ∧
  (∀ (emit : M unit) (required : bool) (s : Store),
      property name (Block emit) required s =
      (emit ;; endLine (js ";"))
        (mkStore (buffer s ++ tabs (indent s) ++ formatPropertyName name
                    ++ (if required then [] else js "?") ++ js ": ")
                 (indent s) (seenSchemaRefs s))).
Proof.
  assert (Hne : name ≠ dquote ++ name ++ dquote).
  { intros H. apply (f_equal length) in H. rewrite !length_app in H. simpl in H. lia. }
  split; [|split; [|split]].
  - split; [|apply formatPropertyName_special].
    intros H. destruct (hasSpecial_dec name) as [|Hn]; [assumption|].
    rewrite (formatPropertyName_plain _ Hn) in H. contradiction.
  - split; [|apply formatPropertyName_plain].
    intros H Hs. rewrite (formatPropertyName_special _ Hs) in H. congruence.
  - intros. unfold property, writeLine, startIndentedLine, write.
    rewrite <- !app_assoc. reflexivity.
  - intros. reflexivity.
Qed.

(** ** The invocations of the tests file (C2) *)

Lemma writeResourceTests_no_methods fuel api ancestors resourceName resource s :
  methods resource = None ∨ methods resource = Some [] →
  writeResourceTests fuel api ancestors resourceName resource s = Ret tt s.
Proof.
  destruct resource as [ms rs]. cbn [methods].
  intros [-> | ->]; reflexivity.
Qed.

(** C2 does not hold: the loop over the sub-resources sits inside the loop
    over the methods.  A resource without methods hides the methods below it
    (nothing at all is written for it), and a resource with two methods has
    the method of its child invoked twice. *)
Theorem writeResourceTests_misses_and_repeats :
  (∀ fuel s,
      writeResourceTests fuel (emptyApi [(js "parent", silentParent)])
        (js "gapi.client.demo") (js "parent") silentParent s = Ret tt s) ∧
  (∀ fuel,
      option_map (occurrences (js "await "))
        (emitted (writeTests fuel (emptyApi [(js "parent", silentParent)]) store0))
      = Some 0) ∧
  option_map (occurrences (js "await gapi.client.demo.parent.child.get("))
    (emitted (writeTests 1 (emptyApi [(js "parent", loudParent)]) store0))
  = Some 2.
Proof.
  split; [|split].
  - intros. apply writeResourceTests_no_methods. left. reflexivity.
  - intros fuel. vm_compute. reflexivity.
  - vm_compute. reflexivity.
Qed.

(** ** The order of the keys (C5) *)

Lemma js_lt_irrefl (a : jsstring) : js_lt a a = false.
Proof.
  induction a as [|x a IH]; [reflexivity|]. cbn [js_lt].
  rewrite N.ltb_irrefl. exact IH.
Qed.

Lemma js_lt_trans (a b c : jsstring) :
  js_lt a b = true → js_lt b c = true → js_lt a c = true.
Proof.
  revert b c. induction a as [|x a IH]; intros [|y b] [|z c]; cbn [js_lt];
    try congruence.
  destruct (N.ltb_spec x y), (N.ltb_spec y x), (N.ltb_spec y z), (N.ltb_spec z y),
    (N.ltb_spec x z), (N.ltb_spec z x); try lia; try congruence.
  apply IH.
Qed.

Lemma js_lt_total (a b : jsstring) :
  js_lt a b = false → js_lt b a = false → a = b.
Proof.
  revert b. induction a as [|x a IH]; intros [|y b]; cbn [js_lt]; try congruence.
  destruct (N.ltb_spec x y), (N.ltb_spec y x); try lia; try congruence.
  intros H1 H2. assert (x = y) by lia. subst. f_equal. auto.
Qed.

Lemma js_lt_asym (a b : jsstring) : js_lt a b = true → js_lt b a = false.
Proof.
  intros H. destruct (js_lt b a) eqn:E; [|reflexivity].
  pose proof (js_lt_trans _ _ _ H E) as Hc. rewrite js_lt_irrefl in Hc. discriminate.
Qed.

Lemma insertSorted_perm a l : Permutation (insertSorted a l) (a :: l).
Proof.
  induction l as [|b l IH]; cbn [insertSorted]; [reflexivity|].
  destruct (js_gt a b); [|reflexivity].
  rewrite IH. apply perm_swap.
Qed.

Lemma sortStrings_perm keys : Permutation (sortStrings keys) keys.
Proof.
  induction keys as [|k keys IH]; cbn; [reflexivity|].
  rewrite insertSorted_perm. constructor. exact IH.
Qed.

Lemma insertSorted_sorted a l :
  ¬ In a l →
  StronglySorted (fun x y => js_lt x y = true) l →
  StronglySorted (fun x y => js_lt x y = true) (insertSorted a l).
Proof.
  induction l as [|b l IH]; intros Hnin Hs; cbn [insertSorted].
  - repeat constructor.
  - inversion Hs as [|? ? Hs' Hall]; subst. unfold js_gt.
    destruct (js_lt b a) eqn:E.
    + constructor; [apply IH; [intros H; apply Hnin; right; exact H | exact Hs']|].
      rewrite (insertSorted_perm a l). constructor; assumption.
    + assert (Hab : js_lt a b = true).
      { destruct (js_lt a b) eqn:E'; [reflexivity|].
        exfalso. apply Hnin. left. symmetry. apply js_lt_total; assumption. }
      constructor; [exact Hs|]. constructor; [exact Hab|].
      eapply List.Forall_impl; [|exact Hall]. intros c Hc. cbn in Hc.
      eapply js_lt_trans; eassumption.
Qed.

Lemma sortStrings_sorted keys :
  List.NoDup keys → StronglySorted (fun x y => js_lt x y = true) (sortStrings keys).
Proof.
  induction 1 as [|k keys Hnin Hnd IH]; cbn; [constructor|].
  apply insertSorted_sorted; [|exact IH].
  intros H. apply Hnin. eapply Permutation_in; [apply sortStrings_perm | exact H].
Qed.

Lemma sorted_perm_unique (l1 l2 : list jsstring) :
  StronglySorted (fun x y => js_lt x y = true) l1 →
  StronglySorted (fun x y => js_lt x y = true) l2 →
  Permutation l1 l2 → l1 = l2.
Proof.
  revert l2. induction l1 as [|a l1 IH]; intros l2 H1 H2 Hp.
  - apply Permutation_nil in Hp. congruence.
  - destruct l2 as [|b l2]; [symmetry in Hp; apply Permutation_nil in Hp; discriminate|].
    inversion H1 as [|? ? H1' Ha]; inversion H2 as [|? ? H2' Hb]; subst.
    rewrite List.Forall_forall in Ha, Hb.
    assert (a = b) as ->.
    { assert (Hin : In a (b :: l2)) by (eapply Permutation_in; [exact Hp | left; reflexivity]).
      assert (Hin' : In b (a :: l1)).
      { eapply Permutation_in; [symmetry; exact Hp | left; reflexivity]. }
      destruct Hin as [->|Hin]; [reflexivity|].
      destruct Hin' as [->|Hin']; [reflexivity|].
      pose proof (Ha _ Hin') as Hab. pose proof (Hb _ Hin) as Hba.
      rewrite (js_lt_asym _ _ Hab) in Hba. discriminate. }
    f_equal. apply IH; [assumption..|]. eapply Permutation_cons_inv. exact Hp.
Qed.

Lemma lookupKey_NoDup {T} (record : list (jsstring * T)) key v :
  List.NoDup (List.map fst record) → In (key, v) record → lookupKey key record = Some v.
Proof.
  induction record as [|[k x] r IH]; cbn [lookupKey List.map fst]; [intros _ []|].
  intros Hnd Hin. inversion Hnd as [|? ? Hnin Hnd']; subst.
  destruct Hin as [[= -> ->]|Hin].
  - rewrite js_eqb_refl. reflexivity.
  - destruct (js_eqb k key) eqn:E; [|auto].
    apply js_eqb_eq in E. subst k. exfalso. apply Hnin.
    apply in_map_iff. exists (key, v). split; [reflexivity | exact Hin].
Qed.

Lemma lookupKey_perm {T} (r r' : list (jsstring * T)) key :
  List.NoDup (List.map fst r) → Permutation r r' → lookupKey key r' = lookupKey key r.
Proof.
  intros Hnd Hp.
  assert (Hnd' : List.NoDup (List.map fst r')).
  { eapply Permutation_NoDup; [apply Permutation_map; exact Hp | exact Hnd]. }
  destruct (lookupKey key r) as [v|] eqn:E.
  - apply lookupKey_NoDup; [exact Hnd'|].
    eapply Permutation_in; [exact Hp | apply lookupKey_In, E].
  - destruct (lookupKey key r') as [v|] eqn:E'; [|reflexivity].
    apply lookupKey_In in E'.
    rewrite (lookupKey_NoDup r key v Hnd) in E; [discriminate|].
    eapply Permutation_in; [symmetry; exact Hp | exact E'].
Qed.

Lemma forOf_ext {T} (xs : list T) (f g : T → nat → M unit) :
  (∀ x i s, f x i s = g x i s) → ∀ i s, forOf xs i f s = forOf xs i g s.
Proof.
  intros H. induction xs as [|x xs IH]; intros i s; cbn [forOf]; [reflexivity|].
  rewrite !bind_run, H. destruct (g x i s); auto.
Qed.

Lemma sortStrings_perm_eq (k1 k2 : list jsstring) :
  List.NoDup k1 → Permutation k1 k2 → sortStrings k2 = sortStrings k1.
Proof.
  intros Hnd Hp. apply sorted_perm_unique.
  - apply sortStrings_sorted. eapply Permutation_NoDup; eassumption.
  - apply sortStrings_sorted, Hnd.
  - rewrite !sortStrings_perm. symmetry. exact Hp.
Qed.

Lemma forEachOrdered_perm {T} (r r' : list (jsstring * T))
    (iterator : T → jsstring → nat → M unit) s :
  List.NoDup (List.map fst r) → Permutation r r' →
  forEachOrdered (Some r') iterator s = forEachOrdered (Some r) iterator s.
Proof.
  intros Hnd Hp. unfold forEachOrdered.
  rewrite (sortStrings_perm_eq (List.map fst r) (List.map fst r') Hnd
             (Permutation_map fst Hp)).
  apply forOf_ext. intros key i s'. rewrite (lookupKey_perm r r' key Hnd Hp). reflexivity.
Qed.

Lemma bind_ext {A B} (m m' : M A) (f f' : A → M B) s :
  m s = m' s → (∀ a s', f a s' = f' a s') → (m ≫= f) s = (m' ≫= f') s.
Proof. intros Hm Hf. rewrite !bind_run, Hm. destruct (m' s); auto. Qed.

Lemma map_fst_attach {T U} (f : jsstring * T → U) (r : list (jsstring * T)) :
  List.map fst (List.map (fun kv => (fst kv, f kv)) r) = List.map fst r.
Proof. rewrite List.map_map. reflexivity. Qed.

Lemma getType_object_perm (node : JsonSchema) (ps ps' : list (jsstring * JsonSchema))
    schemas :
  type node = Some (js "object") →
  List.NoDup (List.map fst ps) → Permutation ps ps' →
  ∃ emit emit',
    getType (withProperties ps node) schemas = inr (Block emit) ∧
    getType (withProperties ps' node) schemas = inr (Block emit') ∧
    ∀ s, emit' s = emit s.
Proof.
  intros Hty Hnd Hp. destruct node as [i ty r d rq rp it ps0 ap].
  cbn in Hty. subst ty. unfold withProperties.
  cbn [getType id type ref description required repeated items properties
       additionalProperties].
  change (strictEq (Some (js "object")) (js "array")) with false.
  change (strictEq (Some (js "object")) (js "object")) with true.
  cbn match. do 2 eexists. split; [reflexivity|]. split; [reflexivity|].
  intros s. unfold anonymysType.
  apply bind_ext; [reflexivity|]. intros _ s1.
  apply bind_ext; [reflexivity|]. intros _ s2.
  apply bind_ext; [|reflexivity].
  apply bind_ext; [|reflexivity].
  apply forEachOrdered_perm.
  - rewrite map_fst_attach. exact Hnd.
  - apply Permutation_map. exact Hp.
Qed.

Lemma writeResources_perm (rs rs' : list (jsstring * RestResource)) parameters_ schemas s :
  List.NoDup (List.map fst rs) → Permutation rs rs' →
  writeResources (Some rs') parameters_ schemas s
  = writeResources (Some rs) parameters_ schemas s.
Proof.
  intros Hnd Hp. unfold writeResources. apply forEachOrdered_perm.
  - rewrite map_fst_attach. exact Hnd.
  - apply Permutation_map. exact Hp.
Qed.

Lemma insertEntry_keys {T} (e : jsstring * T) (l : list (jsstring * T)) :
  List.map fst (insertEntry e l) = insertSorted (fst e) (List.map fst l).
Proof.
  induction l as [|b l IH]; cbn [insertEntry insertSorted List.map]; [reflexivity|].
  destruct (js_gt (fst e) (fst b)); cbn [List.map]; [rewrite IH|]; reflexivity.
Qed.

Lemma insertEntry_perm {T} (e : jsstring * T) l : Permutation (insertEntry e l) (e :: l).
Proof.
  induction l as [|b l IH]; cbn [insertEntry]; [reflexivity|].
  destruct (js_gt _ _); [|reflexivity]. rewrite IH. apply perm_swap.
Qed.

Lemma sortedEntries_keys {T} (record : list (jsstring * T)) :
  List.map fst (fold_right insertEntry [] record) = sortStrings (List.map fst record).
Proof.
  induction record as [|e record IH]; [reflexivity|].
  cbn [fold_right List.map sortStrings]. rewrite insertEntry_keys, IH. reflexivity.
Qed.

Lemma sortedEntries_perm {T} (record : list (jsstring * T)) :
  Permutation (fold_right insertEntry [] record) record.
Proof.
  induction record as [|e record IH]; [reflexivity|].
  cbn [fold_right]. rewrite insertEntry_perm. constructor. exact IH.
Qed.

Lemma setKey_fresh {T} key (v : T) (acc : list (jsstring * T)) :
  ¬ In key (List.map fst acc) → setKey key v acc = acc ++ [(key, v)].
Proof.
  induction acc as [|[k x] acc IH]; cbn [setKey List.map fst app]; [reflexivity|].
  intros H. destruct (js_eqb k key) eqn:E.
  - apply js_eqb_eq in E. exfalso. apply H. left. exact E.
  - rewrite IH; [reflexivity|]. intros Hin. apply H. right. exact Hin.
Qed.

Lemma rebuild_distinct {T} (l acc : list (jsstring * T)) :
  List.NoDup (List.map fst (acc ++ l)) →
  fold_left (fun curr e => setKey (fst e) (snd e) curr) l acc = acc ++ l.
Proof.
  revert acc. induction l as [|[k v] l IH]; intros acc Hnd; cbn [fold_left fst snd].
  - rewrite app_nil_r. reflexivity.
  - rewrite setKey_fresh.
    + rewrite IH; rewrite <- app_assoc; [reflexivity | exact Hnd].
    + rewrite List.map_app in Hnd. cbn [List.map fst] in Hnd.
      apply List.NoDup_remove_2 in Hnd. intros Hin. apply Hnd.
      apply in_or_app. left. exact Hin.
Qed.

Lemma sortKeys_sorted {T} (record : list (jsstring * T)) :
  List.NoDup (List.map fst record) →
  List.map fst (sortKeys record) = sortStrings (List.map fst record) ∧
  Permutation (sortKeys record) record.
Proof.
  intros Hnd. unfold sortKeys. rewrite rebuild_distinct.
  - cbn [app]. split; [apply sortedEntries_keys | apply sortedEntries_perm].
  - cbn [app]. eapply Permutation_NoDup; [|exact Hnd].
    apply Permutation_map. symmetry. apply sortedEntries_perm.
Qed.



(** ** Resources, children first (C9) *)

Lemma lookupKey_of_key {T} (key : jsstring) (r : list (jsstring * T)) :
  In key (List.map fst r) → ∃ v, lookupKey key r = Some v.
Proof.
  induction r as [|[k x] r IH]; cbn [List.map fst lookupKey]; [intros []|].
  intros [->|H].
  - rewrite js_eqb_refl. eauto.
  - destruct (js_eqb k key); eauto.
Qed.

Lemma getResourceTypeName_Some name typeName :
  getResourceTypeName name = inr typeName → typeName = capitalize name ++ js "Resource".
Proof. destruct name; cbn; [discriminate | intros [= <-]; reflexivity]. Qed.

Lemma childProperties_run {T} (children : list (jsstring * T)) (keys : list jsstring) :
  (∀ key, In key keys → In key (List.map fst children)) →
  ∀ i s s',
    forOf keys i
      (fun key _ =>
         match lookupKey key children with
         | Some _ =>
             childResourceInterfaceName ← lift (getResourceTypeName key) ;
             property key (Inline childResourceInterfaceName) true
         | None => skip
         end) s = Ret tt s' →
    s' = mkStore (buffer s ++ childPropertyLines (indent s) keys) (indent s)
                 (seenSchemaRefs s).
Proof.
  induction keys as [|key keys IH]; intros Hin i s s'; cbn [forOf].
  - intros [= <-]. unfold childPropertyLines. cbn. rewrite app_nil_r.
    destruct s; reflexivity.
  - rewrite bind_run.
    destruct (lookupKey_of_key key children (Hin key (or_introl eq_refl))) as [v ->].
    rewrite bind_run.
    destruct (getResourceTypeName key) as [e|tn] eqn:E; cbn [lift throw mret M_ret];
      [discriminate|].
    apply getResourceTypeName_Some in E. subst tn.
    unfold property, writeLine, startIndentedLine, write.
    intros H. apply IH in H; [|intros k Hk; apply Hin; right; exact Hk].
    rewrite H. cbn [buffer indent seenSchemaRefs]. f_equal.
    unfold childPropertyLines. cbn [List.map concat].
    rewrite <- !app_assoc. reflexivity.
Qed.

Lemma childProperties_loop (children : option (list (jsstring * RestResource))) s s' :
  forEachOrdered children
    (fun _ childResourceName _ =>
       childResourceInterfaceName ← lift (getResourceTypeName childResourceName) ;
       property childResourceName (Inline childResourceInterfaceName) true) s = Ret tt s' →
  s' = mkStore (buffer s
                  ++ childPropertyLines (indent s)
                       (sortStrings (List.map fst (match children with
                                                   | Some c => c
                                                   | None => []
                                                   end))))
               (indent s) (seenSchemaRefs s).
Proof.
  destruct children as [children|]; unfold forEachOrdered.
  - intros H. eapply childProperties_run; [|exact H].
    intros key Hk. eapply Permutation_in; [apply sortStrings_perm | exact Hk].
  - intros [= <-]. cbn. rewrite app_nil_r. destruct s; reflexivity.
Qed.

Lemma writeNestedResources_eq parameters_ schemas resource :
  writeNestedResources (match parameters_ with Some p => p | None => [] end)
                       schemas resource
  = writeResources (resources resource) parameters_ schemas.
Proof. destruct resource, parameters_; reflexivity. Qed.

Lemma writeResources_single
    (parameters_ : option (list (jsstring * JsonSchema)))
    (schemas : option (list (jsstring * JsonSchema)))
    (resourceName : jsstring) (resource : RestResource) (s s' : Store) :
  writeResources (Some [(resourceName, resource)]) parameters_ schemas s = Ret tt s' →
  ∃ s1 s2,
    writeResources (resources resource) parameters_ schemas s = Ret tt s1 ∧
    forEachOrdered (methods resource)
      (fun method_ name _ =>
         writeMethod (match parameters_ with Some p => p | None => [] end)
                     schemas method_ name)
      (interfaceOpened (capitalize resourceName ++ js "Resource") s1) = Ret tt s2 ∧
    buffer s' =
      buffer s2
        ++ childPropertyLines (indent s2)
             (sortStrings (List.map fst (match resources resource with
                                         | Some c => c
                                         | None => []
                                         end)))
        ++ tabs (pred (indent s2)) ++ js "}" ++ newLine.
Proof.
  unfold writeResources at 1. unfold forEachOrdered at 1.
  cbn [List.map fst sortStrings fold_right insertSorted forOf lookupKey snd].
  rewrite js_eqb_refl, bind_run. unfold writeResource at 1.
  rewrite bind_run.
  destruct (getResourceTypeName resourceName) as [e|tn] eqn:E;
    cbn [lift throw mret M_ret]; [discriminate|].
  apply getResourceTypeName_Some in E. subst tn.
  rewrite bind_run.
  rewrite writeNestedResources_eq. cbn [fst snd].
  destruct (writeResources (resources resource) parameters_ schemas s)
    as [[] s1|e s1|] eqn:Hnested; try discriminate.
  unfold interface, braces. rewrite bind_run.
  unfold writeLine at 1, startIndentedLine at 1, write at 1.
  rewrite bind_run. unfold indentBy at 1. cbn [buffer indent seenSchemaRefs].
  rewrite bind_run, bind_run.
  match goal with |- context [forEachOrdered (methods resource) ?it ?st] =>
    destruct (forEachOrdered (methods resource) it st) as [[] s2|e s2|] eqn:Hm end;
    try discriminate.
  match goal with |- context [forEachOrdered (resources resource) ?it s2] =>
    destruct (forEachOrdered (resources resource) it s2) as [[] s3|e s3|] eqn:Hc end;
    try discriminate.
  apply childProperties_loop in Hc. subst s3.
  cbn. intros [= <-]. exists s1, s2. split; [reflexivity|]. split.
  - unfold interfaceOpened. rewrite <- Hm. f_equal. f_equal.
    rewrite <- !app_assoc. reflexivity.
  - cbn. rewrite <- !app_assoc. reflexivity.
Qed.


Lemma lookupKey_attach {T U} (f : jsstring * T → U) (r : list (jsstring * T)) key :
  lookupKey key (List.map (fun kv => (fst kv, f kv)) r)
  = match lookupKey key r with
    | Some v => Some (f (key, v))
    | None => None
    end.
Proof.
  induction r as [|[k x] r IH]; cbn [List.map lookupKey fst]; [reflexivity|].
  destruct (js_eqb k key) eqn:E; [|exact IH].
  apply js_eqb_eq in E. subst. reflexivity.
Qed.

Lemma writeResources_each (record : list (jsstring * RestResource)) parameters_ schemas s :
  writeResources (Some record) parameters_ schemas s
  = forOf (sortStrings (List.map fst record)) 0
      (fun key _ =>
         match lookupKey key record with
         | Some resource => writeResources (Some [(key, resource)]) parameters_ schemas
         | None => skip
         end) s.
Proof.
  unfold writeResources at 1. unfold forEachOrdered at 1.
  rewrite map_fst_attach. apply forOf_ext. intros key i s0.
  rewrite lookupKey_attach. destruct (lookupKey key record) as [resource|]; [|reflexivity].
  unfold writeResources, forEachOrdered.
  cbn [List.map fst snd sortStrings fold_right insertSorted forOf lookupKey].
  rewrite js_eqb_refl, bind_run. cbn [fst snd].
  destruct (writeResource _ _ _ _ _ s0) as [[] ?| |]; reflexivity.
Qed.



(** ** Comments (C8) *)

Local Open Scope N_scope.

Lemma replaceAll_app c by_ a b :
  replaceAll c by_ (a ++ b) = replaceAll c by_ a ++ replaceAll c by_ b.
Proof. unfold replaceAll. apply flat_map_app. Qed.

Lemma trimStart_keep c s : isWhiteSpace c = false → trimStart (c :: s) = c :: s.
Proof. intros H. cbn [trimStart]. rewrite H. reflexivity. Qed.

Lemma trimStart_star l :
  trimStart (replaceAll 0x2A (js "&#42;") l) = replaceAll 0x2A (js "&#42;") (trimStart l).
Proof.
  induction l as [|c l IH]; [reflexivity|].
  cbn [trimStart]. destruct (isWhiteSpace c) eqn:W.
  - assert ((c =? 0x2A) = false) as E.
    { destruct (N.eqb_spec c 0x2A) as [->|]; [discriminate | reflexivity]. }
    unfold replaceAll in *. cbn [flat_map]. rewrite E. cbn [app trimStart].
    rewrite W. exact IH.
  - unfold replaceAll. cbn [flat_map]. destruct (c =? 0x2A).
    + reflexivity.
    + cbn [app trimStart]. rewrite W. reflexivity.
Qed.

Lemma trimEnd_snoc s c :
  trimEnd (s ++ [c]) = if isWhiteSpace c then trimEnd s else s ++ [c].
Proof.
  unfold trimEnd. rewrite rev_app_distr. cbn [rev app trimStart].
  destruct (isWhiteSpace c); [reflexivity|].
  cbn [rev]. rewrite rev_involutive. reflexivity.
Qed.

Lemma trimEnd_star l :
  trimEnd (replaceAll 0x2A (js "&#42;") l) = replaceAll 0x2A (js "&#42;") (trimEnd l).
Proof.
  induction l as [|c l IH] using rev_ind; [reflexivity|].
  rewrite replaceAll_app, trimEnd_snoc.
  unfold replaceAll at 2. cbn [flat_map]. rewrite app_nil_r.
  destruct (N.eqb_spec c 0x2A) as [->|Hne].
  - change (js "&#42;") with ([38; 35; 52; 50] ++ [59]) at 2.
    rewrite app_assoc, trimEnd_snoc. cbn [isWhiteSpace].
    change (isWhiteSpace 59) with false. change (isWhiteSpace 42) with false.
    cbn match. rewrite replaceAll_app, <- app_assoc. reflexivity.
  - rewrite trimEnd_snoc. destruct (isWhiteSpace c); [exact IH|].
    rewrite replaceAll_app. unfold replaceAll at 3. cbn [flat_map].
    destruct (N.eqb_spec c 0x2A); [contradiction|]. rewrite app_nil_r. reflexivity.
Qed.

Lemma trim_star l :
  trim (replaceAll 0x2A (js "&#42;") l) = replaceAll 0x2A (js "&#42;") (trim l).
Proof.
  unfold trim. fold (trimEnd (trimStart (replaceAll 0x2A (js "&#42;") l))).
  fold (trimEnd (trimStart l)). rewrite trimStart_star. apply trimEnd_star.
Qed.

Lemma replaceEach_app cs a b : replaceEach cs (a ++ b) = replaceEach cs a ++ replaceEach cs b.
Proof.
  revert a b. induction cs as [|c cs IH]; intros a b; [reflexivity|].
  unfold replaceEach in *. cbn [fold_left]. rewrite replaceAll_app. apply IH.
Qed.

Lemma replaceEach_space cs : existsb (N.eqb 0x20) cs = false → replaceEach cs (js " ") = js " ".
Proof.
  induction cs as [|c cs IH]; [reflexivity|]. cbn [existsb].
  intros H. apply orb_false_iff in H. destruct H as [H1 H2].
  unfold replaceEach in *. cbn [fold_left].
  change (replaceAll c (js " ") (js " ")) with ((if 0x20 =? c then js " " else [0x20]) ++ []).
  rewrite H1. apply IH, H2.
Qed.

Lemma replaceEach_one cs x :
  existsb (N.eqb 0x20) cs = false →
  replaceEach cs [x] = if existsb (N.eqb x) cs then js " " else [x].
Proof.
  induction cs as [|c cs IH]; [reflexivity|]. cbn [existsb].
  intros H. apply orb_false_iff in H. destruct H as [H1 H2].
  unfold replaceEach in *. cbn [fold_left].
  change (replaceAll c (js " ") [x]) with ((if x =? c then js " " else [x]) ++ []).
  rewrite app_nil_r. destruct (x =? c); cbn [orb].
  - apply replaceEach_space, H2.
  - apply IH, H2.
Qed.

Lemma fold_map_replace cs lines :
  fold_left (fun lines c => List.map (replaceAll c (js " ")) lines) cs lines
  = List.map (replaceEach cs) lines.
Proof.
  revert lines. induction cs as [|c cs IH]; intros lines; cbn [fold_left].
  - rewrite List.map_id. reflexivity.
  - rewrite IH, List.map_map. reflexivity.
Qed.

Lemma replace_both l :
  replaceEach irregylarSpaces (replaceAll 0x2A (js "&#42;") l) = flat_map substitute l.
Proof.
  induction l as [|c l IH]; [reflexivity|].
  change (replaceAll 0x2A (js "&#42;") (c :: l))
    with ((if c =? 0x2A then js "&#42;" else [c]) ++ replaceAll 0x2A (js "&#42;") l).
  rewrite replaceEach_app, IH. cbn [flat_map]. f_equal.
  unfold substitute. destruct (c =? 0x2A); [reflexivity|].
  apply replaceEach_one. reflexivity.
Qed.

Lemma commentLines_substitute text :
  commentLines text = List.map (fun line => flat_map substitute (trim line)) (brokenLines text).
Proof.
  unfold commentLines. rewrite fold_map_replace, List.map_map.
  apply List.map_ext. intros line. rewrite trim_star. apply replace_both.
Qed.

Lemma split_nonempty c s : split c s ≠ [].
Proof.
  destruct s as [|x s]; cbn [split]; [discriminate|].
  destruct (x =? c); [discriminate|]. destruct (split c s); discriminate.
Qed.

Lemma split_app_sep c a b : split c (a ++ c :: b) = split c a ++ split c b.
Proof.
  induction a as [|x a IH]; cbn [app split].
  - rewrite N.eqb_refl. reflexivity.
  - rewrite IH. destruct (x =? c); [reflexivity|].
    pose proof (split_nonempty c a). destruct (split c a); [contradiction | reflexivity].
Qed.

Lemma split_free c s : ¬ In c s → split c s = [s].
Proof.
  induction s as [|x s IH]; [reflexivity|]. intros H. cbn [split].
  destruct (N.eqb_spec x c) as [->|_]; [exfalso; apply H; left; reflexivity|].
  rewrite IH; [reflexivity|]. intros Hin. apply H. right. exact Hin.
Qed.

Lemma split_pieces c s : ∀ w, In w (split c s) → ¬ In c w.
Proof.
  induction s as [|x s IH]; cbn [split]; intros w.
  - intros [<-|[]] [].
  - destruct (N.eqb_spec x c) as [->|Hne].
    + intros [<-|H]; [intros [] | apply IH, H].
    + pose proof (split_nonempty c s). destruct (split c s) as [|w0 ws]; [contradiction|].
      intros [<-|H'].
      * intros [Heq|Hin]; [congruence|]. apply (IH w0); [left; reflexivity | exact Hin].
      * apply IH. right. exact H'.
Qed.

Lemma words_app a b : words (a ++ js " " ++ b) = words a ++ words b.
Proof.
  unfold words. change (a ++ js " " ++ b) with (a ++ 0x20 :: b).
  rewrite split_app_sep. apply List.filter_app.
Qed.

Lemma words_word w :
  ¬ In 0x20 w → words w = (if js_eqb w [] then [] else [w]).
Proof.
  intros H. unfold words. rewrite (split_free _ _ H). cbn [List.filter].
  destruct (js_eqb w []); reflexivity.
Qed.

Lemma wrapStep_words (ws : list jsstring) :
  (∀ w, In w ws → ¬ In 0x20 w) →
  ∀ st, flat_map words (fst (fold_left wrapStep ws st) ++ [snd (fold_left wrapStep ws st)])
        = flat_map words (fst st ++ [snd st])
            ++ List.filter (fun w => negb (js_eqb w [])) ws.
Proof.
  induction ws as [|w ws IH]; intros Hws [lines line]; cbn [fold_left List.filter].
  - rewrite app_nil_r. reflexivity.
  - rewrite IH by (intros w' Hw'; apply Hws; right; exact Hw').
    assert (Hw : words w = List.filter (fun w => negb (js_eqb w [])) [w]).
    { rewrite words_word by (apply Hws; left; reflexivity). cbn [List.filter].
      destruct (js_eqb w []); reflexivity. }
    cbn [List.filter app] in Hw.
    assert (Hstep : flat_map words (fst (wrapStep (lines, line) w)
                                      ++ [snd (wrapStep (lines, line) w)])
                    = flat_map words (lines ++ [line]) ++ words w).
    { unfold wrapStep. destruct (_ <? _)%nat; cbn [fst snd].
      - rewrite !flat_map_app. cbn [flat_map]. rewrite !app_nil_r. reflexivity.
      - destruct (js_eqb line []) eqn:E; cbn [fst snd].
        + apply js_eqb_eq in E. subst line. rewrite !flat_map_app. cbn [flat_map].
          rewrite !app_nil_r. reflexivity.
        + rewrite !flat_map_app. cbn [flat_map]. rewrite !app_nil_r, words_app.
          rewrite app_assoc. reflexivity. }
    rewrite Hstep, Hw, <- app_assoc. f_equal.
    destruct (negb (js_eqb w [])); reflexivity.
Qed.

Lemma wrapLine_words line : flat_map words (wrapLine line) = words line.
Proof.
  unfold wrapLine.
  pose proof (wrapStep_words (split 0x20 line) (split_pieces 0x20 line) ([], [])) as H.
  destruct (fold_left wrapStep (split 0x20 line) ([], [])) as [lines newLine_].
  cbn [fst snd] in H. rewrite H. reflexivity.
Qed.



Local Close Scope N_scope.

(** ** The guard set of the stub values (C3) *)

Lemma restores_skip : restores skip.
Proof. intros s. cbn. repeat split. exists []. rewrite app_nil_r. reflexivity. Qed.

Lemma restores_throw e : restores (throw e).
Proof. intros s. cbn. split; [reflexivity|]. exists []. rewrite app_nil_r. reflexivity. Qed.

Lemma restores_write chunk : restores (write chunk).
Proof. intros s. cbn. repeat split. exists chunk. reflexivity. Qed.

Lemma restores_startIndentedLine chunk : restores (startIndentedLine chunk).
Proof. intros s. cbn. repeat split. eexists. reflexivity. Qed.

Lemma restores_bind (m : M unit) (f : unit → M unit) :
  restores m → (∀ a, restores (f a)) → restores (m ≫= f).
Proof.
  intros Hm Hf s. rewrite bind_run. specialize (Hm s).
  destruct (m s) as [a s1|e s1|]; [|exact Hm|exact I].
  destruct Hm as (Hs & Hi & t & Ht). specialize (Hf a s1).
  destruct (f a s1) as [b s2|e s2|]; [| |exact I].
  - destruct Hf as (Hs' & Hi' & t' & Ht'). repeat split; try congruence.
    exists (t ++ t'). rewrite Ht', Ht, app_assoc. reflexivity.
  - destruct Hf as (Hs' & t' & Ht'). split; [rewrite <- Hs; exact Hs'|].
    exists (t ++ t'). rewrite Ht', Ht, app_assoc. reflexivity.
Qed.

Lemma restores_bind_lift {A} (r : exn + A) (f : A → M unit) :
  (∀ a, r = inr a → restores (f a)) → restores (lift r ≫= f).
Proof.
  intros H s. rewrite bind_run. destruct r as [e|a]; cbn [lift throw mret M_ret].
  - apply (restores_throw e s).
  - apply (H a eq_refl s).
Qed.

Lemma restores_beginNewLine chunk : restores (beginNewLine chunk).
Proof.
  apply restores_bind; [apply restores_write | intros _; apply restores_startIndentedLine].
Qed.

Lemma restores_scope context a b : restores context → restores (scope context a b).
Proof.
  intros Hc s. rewrite scope_run.
  match goal with |- context [context ?st] => specialize (Hc st); destruct (context st)
    as [[] s1|e s1|] end; cbn [buffer indent seenSchemaRefs] in Hc; [| |exact I].
  - destruct Hc as (Hs & Hi & t & Ht). cbn [buffer indent seenSchemaRefs].
    rewrite Hi. repeat split; [exact Hs|].
    eexists. rewrite Ht, <- !app_assoc. reflexivity.
  - destruct Hc as (Hs & t & Ht). split; [exact Hs|].
    eexists. rewrite Ht, <- !app_assoc. reflexivity.
Qed.

Lemma restores_forOf {T} (xs : list T) (body : T → nat → M unit) :
  (∀ x i, In x xs → restores (body x i)) → ∀ i, restores (forOf xs i body).
Proof.
  induction xs as [|x xs IH]; intros H i; cbn [forOf]; [apply restores_skip|].
  apply restores_bind; [apply H; left; reflexivity|].
  intros _. apply IH. intros. apply H. right. assumption.
Qed.

Lemma restores_forEachOrdered {T} (record : list (jsstring * T))
    (iterator : T → jsstring → nat → M unit) :
  (∀ k v i, In (k, v) record → restores (iterator v k i)) →
  restores (forEachOrdered (Some record) iterator).
Proof.
  intros H. unfold forEachOrdered. apply restores_forOf. intros key i _.
  destruct (lookupKey key record) as [v|] eqn:E; [|apply restores_skip].
  apply H, lookupKey_In, E.
Qed.

Lemma seenHas_true name s : seenHas name s = true ↔ name ∈ seenSchemaRefs s.
Proof. unfold seenHas. apply bool_decide_eq_true. Qed.

Lemma seenHas_false name s : seenHas name s = false ↔ name ∉ seenSchemaRefs s.
Proof. unfold seenHas. apply bool_decide_eq_false. Qed.

Lemma restores_outOfFuel : restores (fun _ => OutOfFuel).
Proof. intros s. exact I. Qed.

Lemma restores_if (b : bool) (m1 m2 : M unit) :
  restores m1 → restores m2 → restores (if b then m1 else m2).
Proof. destruct b; auto. Qed.

Lemma restores_expansion (schemaName : jsstring) (m : M unit) s :
  schemaName ∉ seenSchemaRefs s → restores m →
  match (seenAdd schemaName ;; m ;; seenDelete schemaName) s with
  | Ret _ s' =>
      seenSchemaRefs s' = seenSchemaRefs s ∧ indent s' = indent s ∧
      ∃ text, buffer s' = buffer s ++ text
  | Throw _ s' =>
      seenSchemaRefs s ⊆ seenSchemaRefs s' ∧ schemaName ∈ seenSchemaRefs s' ∧
      ∃ text, buffer s' = buffer s ++ text
  | OutOfFuel => True
  end.
Proof.
  intros Hnin Hm. rewrite bind_run. cbn [seenAdd]. rewrite bind_run.
  match goal with |- context [m ?st] => specialize (Hm st); destruct (m st)
    as [[] s1|e s1|] end; cbn [buffer indent seenSchemaRefs] in Hm; [| |exact I].
  - destruct Hm as (Hs & Hi & t & Ht). cbn. rewrite Hs.
    split; [set_solver|]. split; [exact Hi|]. exists t. exact Ht.
  - destruct Hm as (Hs & t & Ht). split; [set_solver|]. split; [set_solver|].
    exists t. exact Ht.
Qed.

Lemma stub_restores api fuel : stubWriters restores fuel api.
Proof.
  induction fuel as [|fuel (IHv & IHa & IHo & IHr & IHp)].
  { repeat split; intros; apply restores_outOfFuel. }
  unfold stubWriters. split; [|split; [|split; [|split]]].
  - intros p. cbn [writePropertyValue].
    repeat (apply restores_if; [apply restores_write|]).
    apply restores_if; [apply restores_bind_lift; intros; apply IHa|].
    apply restores_if; [apply IHo|].
    apply restores_if; [apply restores_write | apply restores_throw].
  - intros it. cbn [writeArray]. intros s.
    destruct (truthy (ref it) && seenHas (show (ref it)) s); [apply restores_write|].
    apply restores_scope. apply restores_bind; [apply restores_beginNewLine|].
    intros _. apply restores_if; [apply IHr | apply IHv].
  - intros o. cbn [writeObject]. intros s.
    destruct (truthy _ && seenHas _ s); [apply restores_write|].
    destruct (properties o) as [ps|]; [apply restores_scope, IHp|].
    destruct (additionalProperties o) as [ap|]; [|apply IHv].
    apply restores_scope. apply restores_bind; [apply restores_beginNewLine|].
    intros _. apply restores_if; [apply IHr | apply IHv].
  - intros name. cbn [writeSchemaRef]. intros s.
    destruct (seenHas name s) eqn:Hseen; [apply restores_write|].
    apply seenHas_false in Hseen.
    rewrite bind_run.
    destruct (checkExists (api_schemas api) None None) as [e|schemas];
      cbn [lift throw mret M_ret]; [apply (restores_throw e s)|].
    destruct (lookupKey name schemas) as [schema|]; [|apply restores_throw].
    pose proof (restores_expansion name (writeObject fuel api schema) s Hseen (IHo schema))
      as H.
    destruct ((seenAdd name ;; writeObject fuel api schema ;; seenDelete name) s);
      [exact H | | exact I].
    destruct H as (H1 & _ & H3). split; assumption.
  - intros record. cbn [writeProperties].
    apply restores_forEachOrdered. intros k v i _.
    apply restores_bind; [apply restores_beginNewLine|]. intros _.
    apply restores_bind; [|intros _; apply restores_write].
    apply restores_if; [apply IHo|]. apply restores_if; [apply IHr | apply IHv].
Qed.

(** ** The stub values end (C4) *)

Lemma terminates_skip X : terminates X skip.
Proof. intros s _. discriminate. Qed.

Lemma terminates_throw X e : terminates X (throw e).
Proof. intros s _. discriminate. Qed.

Lemma terminates_write X chunk : terminates X (write chunk).
Proof. intros s _. discriminate. Qed.

Lemma terminates_beginNewLine X chunk : terminates X (beginNewLine chunk).
Proof. intros s _. discriminate. Qed.

Lemma terminates_if X (b : bool) (m1 m2 : M unit) :
  terminates X m1 → terminates X m2 → terminates X (if b then m1 else m2).
Proof. destruct b; auto. Qed.

Lemma terminates_bind X (m : M unit) (f : unit → M unit) :
  terminates X m → restores m → (∀ a, terminates X (f a)) → terminates X (m ≫= f).
Proof.
  intros Hm Hr Hf s Hs. rewrite bind_run. specialize (Hm s Hs). specialize (Hr s).
  destruct (m s) as [a s1|e s1|]; [|discriminate|contradiction].
  apply Hf. destruct Hr as (Hr & _). congruence.
Qed.

Lemma terminates_bind_lift {A} X (r : exn + A) (f : A → M unit) :
  (∀ a, r = inr a → terminates X (f a)) → terminates X (lift r ≫= f).
Proof.
  intros H s Hs. rewrite bind_run. destruct r as [e|a]; cbn [lift throw mret M_ret].
  - discriminate.
  - apply (H a eq_refl s Hs).
Qed.

Lemma terminates_scope X context a b :
  terminates X context → terminates X (scope context a b).
Proof.
  intros Hc s Hs. rewrite scope_run.
  match goal with |- context [context ?st] => specialize (Hc st Hs); destruct (context st)
    as [[] s1|e s1|] end; [discriminate | discriminate | contradiction].
Qed.

Lemma terminates_forOf {T} X (xs : list T) (body : T → nat → M unit) :
  (∀ x i, In x xs → terminates X (body x i) ∧ restores (body x i)) →
  ∀ i, terminates X (forOf xs i body).
Proof.
  induction xs as [|x xs IH]; intros H i; cbn [forOf]; [apply terminates_skip|].
  destruct (H x i (or_introl eq_refl)) as [Ht Hr].
  apply terminates_bind; [exact Ht | exact Hr|].
  intros _. apply IH. intros. apply H. right. assumption.
Qed.

Lemma terminates_forEachOrdered {T} X (record : list (jsstring * T))
    (iterator : T → jsstring → nat → M unit) :
  (∀ k v i, In (k, v) record → terminates X (iterator v k i) ∧ restores (iterator v k i)) →
  terminates X (forEachOrdered (Some record) iterator).
Proof.
  intros H. unfold forEachOrdered. apply terminates_forOf. intros key i _.
  destruct (lookupKey key record) as [v|] eqn:E;
    [|split; [apply terminates_skip | apply restores_skip]].
  apply H, lookupKey_In, E.
Qed.

Lemma size_list_to_set_le (l : list jsstring) :
  size (list_to_set l : gset jsstring) ≤ length l.
Proof.
  induction l as [|x l IH]; cbn [length].
  - rewrite list_to_set_nil, size_empty. lia.
  - rewrite list_to_set_cons, size_union_alt, size_singleton.
    assert (size (list_to_set l ∖ {[x]} : gset jsstring)
            ≤ size (list_to_set l : gset jsstring)).
    { apply subseteq_size. set_solver. }
    lia.
Qed.

Lemma unseen_le_length schemas X : unseen schemas X ≤ length schemas.
Proof.
  unfold unseen.
  transitivity (size (list_to_set (List.map fst schemas) : gset jsstring)).
  - apply subseteq_size. set_solver.
  - rewrite <- (length_map fst schemas). apply size_list_to_set_le.
Qed.

Lemma unseen_add schemas X name :
  In name (List.map fst schemas) → name ∉ X →
  S (unseen schemas (X ∪ {[name]})) ≤ unseen schemas X.
Proof.
  intros Hin Hnin. unfold unseen. apply subset_size.
  apply list_elem_of_In in Hin. set_solver.
Qed.

Lemma shaped_node schema :
  shaped schema = true →
  (strictEq (type schema) (js "object") = true →
   properties schema = None → additionalProperties schema = None → False) ∧
  (∀ i, items schema = Some i → shaped i = true) ∧
  (∀ ps k p, properties schema = Some ps → In (k, p) ps → shaped p = true) ∧
  (∀ a, additionalProperties schema = Some a → shaped a = true).
Proof.
  destruct schema as [i ty r d rq rp it ps ap].
  cbn [shaped type items properties additionalProperties].
  rewrite !andb_true_iff. intros [[[H1 H2] H3] H4]. repeat split.
  - intros Ho -> ->. rewrite Ho in H1. discriminate.
  - intros x ->. exact H2.
  - intros l k p -> Hin. rewrite forallb_forall in H3. apply (H3 (k, p) Hin).
  - intros x ->. exact H4.
Qed.

Lemma table_entry schemas name schema :
  shapedTable schemas = true → lookupKey name schemas = Some schema →
  shaped schema = true ∧ schemaSize schema ≤ maxSize schemas ∧
  In name (List.map fst schemas).
Proof.
  intros Hs Hl. apply lookupKey_In in Hl. unfold shapedTable in Hs.
  rewrite forallb_forall in Hs. split; [apply (Hs _ Hl)|]. split.
  - unfold maxSize.
    pose proof (list_max_le (List.map (fun kv => schemaSize (snd kv)) schemas)
                  (list_max (List.map (fun kv => schemaSize (snd kv)) schemas))) as [H _].
    specialize (H (Nat.le_refl _)). rewrite List.Forall_forall in H.
    apply H. apply in_map_iff. exists (name, schema). split; [reflexivity | exact Hl].
  - apply in_map_iff. exists (name, schema). split; [reflexivity | exact Hl].
Qed.

Lemma schemaSize_pos schema : 1 ≤ schemaSize schema.
Proof. destruct schema; cbn [schemaSize]. lia. Qed.

Section Termination.

Variable api : RestDescription.
Hypothesis table_shaped : shapedTable (tableOf api) = true.

Lemma stub_enough : ∀ fuel, enoughFor api fuel.
Proof.
  induction fuel as [|fuel (IHv & IHa & IHo & IHr & IHp)].
  { unfold enoughFor. repeat split; intros;
      try match goal with H : context [strictEq ?a ?b] |- _ => destruct (strictEq a b) end;
      lia. }
  destruct (stub_restores api fuel) as (Rv & Ra & Ro & Rr & Rp).
  unfold enoughFor. split; [|split; [|split; [|split]]].
  - (* writePropertyValue *)
    intros p X k Hsh Hk Hf. cbn [writePropertyValue].
    pose proof (size_items p) as Hi. destruct (shaped_node p Hsh) as (_ & Hsi & _).
    repeat (apply terminates_if; [apply terminates_write|]).
    apply terminates_if.
    { apply terminates_bind_lift. intros it Hit.
      assert (items p = Some it) as Hit'.
      { destruct (items p); cbn in Hit; [congruence | discriminate]. }
      apply (IHa it X k); [eauto | exact Hk|].
      specialize (Hi it Hit'). destruct (strictEq (type p) (js "object")); lia. }
    destruct (strictEq (type p) (js "object")) eqn:Eo.
    + apply (IHo p X k); [exact Hsh | exact Hk | lia].
    + apply terminates_if; [apply terminates_write | apply terminates_throw].
  - (* writeArray *)
    intros it X k Hsh Hk Hf. cbn [writeArray]. intros s Hs.
    destruct (truthy (ref it) && seenHas (show (ref it)) s); [discriminate|].
    revert s Hs. apply terminates_scope.
    apply terminates_bind; [apply terminates_beginNewLine | apply restores_beginNewLine|].
    intros _. apply terminates_if.
    + apply (IHr _ X k); [exact Hk | lia].
    + apply (IHv it X k); [exact Hsh | exact Hk|].
      destruct (strictEq (type it) (js "object")); lia.
  - (* writeObject *)
    intros o X k Hsh Hk Hf. cbn [writeObject]. intros s Hs.
    destruct (truthy _ && seenHas _ s); [discriminate|].
    destruct (shaped_node o Hsh) as (Hbare & _ & Hsp & Hsa).
    pose proof (size_properties o) as Hp.
    pose proof (size_additionalProperties o) as Ha.
    destruct (properties o) as [ps|] eqn:Eps.
    { revert s Hs. apply terminates_scope.
      pose proof (schemaSize_pos o).
      apply (IHp ps (schemaSize o - 1) X k); [|exact Hk|lia].
      intros key v Hin. split; [eapply Hsp; [reflexivity | exact Hin]|].
      specialize (Hp ps key v eq_refl Hin). lia. }
    destruct (additionalProperties o) as [ap|] eqn:Eap.
    { revert s Hs. apply terminates_scope.
      apply terminates_bind; [apply terminates_beginNewLine | apply restores_beginNewLine|].
      intros _. specialize (Ha ap eq_refl). apply terminates_if.
      - apply (IHr _ X k); [exact Hk | lia].
      - apply (IHv ap X k); [apply Hsa; reflexivity | exact Hk|].
        destruct (strictEq (type ap) (js "object")); lia. }
    revert s Hs. apply (IHv o X k); [exact Hsh | exact Hk|].
    destruct (strictEq (type o) (js "object")) eqn:Eo; [|lia].
    exfalso. apply Hbare; reflexivity.
  - (* writeSchemaRef *)
    intros name X k Hk Hf. cbn [writeSchemaRef]. intros s Hs.
    destruct (seenHas name s) eqn:Hseen; [discriminate|].
    apply seenHas_false in Hseen. rewrite bind_run.
    unfold tableOf in *. cbn zeta in *.
    destruct (api_schemas api) as [schemas|]; cbn [checkExists lift throw mret M_ret];
      [|discriminate].
    destruct (lookupKey name schemas) as [schema|] eqn:El; [|discriminate].
    destruct (table_entry schemas name schema table_shaped El) as (Hsh & Hsz & Hin).
    rewrite bind_run. cbn [seenAdd]. rewrite bind_run.
    pose proof (unseen_add schemas X name Hin) as Hadd.
    rewrite Hs in Hseen. specialize (Hadd Hseen).
    destruct k as [|k]; [lia|].
    assert (Hterm : terminates (X ∪ {[name]}) (writeObject fuel api schema)).
    { apply (IHo schema (X ∪ {[name]}) k); [exact Hsh | lia|].
      unfold expansionCost in *. cbn [Nat.mul] in Hf. lia. }
    match goal with |- context [writeObject fuel api schema ?st] =>
      specialize (Hterm st); destruct (writeObject fuel api schema st) end;
      [discriminate | discriminate|].
    exfalso. apply Hterm; [cbn; congruence | reflexivity].
  - (* writeProperties *)
    intros record n X k Hrec Hk Hf. cbn [writeProperties].
    apply terminates_forEachOrdered. intros key v i Hin.
    destruct (Hrec key v Hin) as [Hsh Hsz].
    assert (Hbody : terminates X
              (if strictEq (type v) (js "object") then writeObject fuel api v
               else if truthy (ref v) then writeSchemaRef fuel api (show (ref v))
                    else writePropertyValue fuel api v)
            ∧ restores
              (if strictEq (type v) (js "object") then writeObject fuel api v
               else if truthy (ref v) then writeSchemaRef fuel api (show (ref v))
                    else writePropertyValue fuel api v)).
    { split.
      - destruct (strictEq (type v) (js "object")) eqn:Eo.
        + apply (IHo v X k); [exact Hsh | exact Hk | lia].
        + apply terminates_if.
          * apply (IHr _ X k); [exact Hk | lia].
          * apply (IHv v X k); [exact Hsh | exact Hk|]. rewrite Eo. lia.
      - apply restores_if; [apply Ro|]. apply restores_if; [apply Rr | apply Rv]. }
    destruct Hbody as [Hterm Hrest]. split.
    + apply terminates_bind; [apply terminates_beginNewLine | apply restores_beginNewLine|].
      intros _. apply terminates_bind; [exact Hterm | exact Hrest|].
      intros _. apply terminates_write.
    + apply restores_bind; [apply restores_beginNewLine|]. intros _.
      apply restores_bind; [exact Hrest | intros _; apply restores_write].
Qed.

Lemma enoughFor_mono_ref fuel name s :
  stubFuel api ≤ fuel → writeSchemaRef fuel api name s ≠ OutOfFuel.
Proof.
  intros Hf. destruct (stub_enough fuel) as (_ & _ & _ & Hr & _).
  apply (Hr name (seenSchemaRefs s) (length (tableOf api))); [| |reflexivity].
  - apply unseen_le_length.
  - exact Hf.
Qed.

End Termination.

(** ** The guard at work (C3, C4) *)

Lemma writeSchemaRef_seen fuel api schemaName s :
  schemaName ∈ seenSchemaRefs s →
  writeSchemaRef (S fuel) api schemaName s
  = Ret tt (mkStore (buffer s ++ js "undefined") (indent s) (seenSchemaRefs s)).
Proof.
  intros H. cbn [writeSchemaRef]. apply seenHas_true in H. rewrite H. reflexivity.
Qed.

Lemma writeSchemaRef_unknown fuel api schemas schemaName s :
  api_schemas api = Some schemas → lookupKey schemaName schemas = None →
  schemaName ∉ seenSchemaRefs s →
  writeSchemaRef (S fuel) api schemaName s
  = Throw (Error (js "Attempted to generate stub for unknown schema '"
                    ++ schemaName ++ js "'")) s.
Proof.
  intros Ha Hl H. cbn [writeSchemaRef]. apply seenHas_false in H. rewrite H.
  rewrite bind_run, Ha. cbn [checkExists lift mret M_ret]. rewrite Hl. reflexivity.
Qed.



Lemma beginNewLine_run chunk s :
  beginNewLine chunk s
  = Ret tt (mkStore ((buffer s ++ newLine) ++ tabs (indent s) ++ chunk)
                    (indent s) (seenSchemaRefs s)).
Proof. reflexivity. Qed.

Lemma propertyLoop_segment fuel api (record : list (jsstring * JsonSchema))
    (A p : jsstring) (node : JsonSchema) (keys : list jsstring) :
  lookupKey p record = Some node →
  strictEq (type node) (js "object") = false → ref node = Some A → A ≠ [] →
  In p keys →
  ∀ i s s',
    A ∈ seenSchemaRefs s →
    forOf keys i
      (fun key _ =>
         match lookupKey key record with
         | Some parameter =>
             beginNewLine (formatPropertyName key ++ js ": ") ;;
             (if strictEq (type parameter) (js "object") then writeObject fuel api parameter
              else if truthy (ref parameter)
                   then writeSchemaRef fuel api (show (ref parameter))
                   else writePropertyValue fuel api parameter) ;;
             write (js ",")
         | None => skip
         end) s = Ret tt s' →
    ∃ pre post,
      buffer s' = buffer s ++ pre
                    ++ (newLine ++ tabs (indent s) ++ formatPropertyName p
                          ++ js ": undefined,") ++ post.
Proof.
  intros Hl Hty Hr HA.
  destruct (stub_restores api fuel) as (Rv & _ & Ro & Rr & _).
  set (body := fun (key : jsstring) (_ : nat) => match lookupKey key record with
                                                 | Some _ => _ | None => _ end).
  assert (Hbody : ∀ key i, restores (body key i)).
  { intros key i. subst body. cbn beta. destruct (lookupKey key record) as [v|];
      [|apply restores_skip].
    apply restores_bind; [apply restores_beginNewLine|]. intros _.
    apply restores_bind; [|intros _; apply restores_write].
    apply restores_if; [apply Ro|]. apply restores_if; [apply Rr | apply Rv]. }
  induction keys as [|key keys IH]; intros Hin i s s' Hseen; [destruct Hin|].
  cbn [forOf]. rewrite bind_run.
  pose proof (Hbody key i s) as Hb.
  destruct (body key i s) as [[] s1|e s1|] eqn:E1; try discriminate.
  destruct Hb as (Hs1 & Hi1 & t & Ht). intros Hrest.
  destruct (decide (key = p)) as [->|Hne].
  - pose proof (restores_forOf keys body (fun x j _ => Hbody x j) (S i) s1) as Hl'.
    rewrite Hrest in Hl'. destruct Hl' as (_ & _ & t' & Ht').
    exists [], t'. rewrite Ht'. cbn [app].
    subst body. cbn beta in E1. rewrite Hl, Hty, Hr in E1.
    assert (Htr : truthy (Some A) = true) by (destruct A; [congruence | reflexivity]).
    rewrite Htr in E1. cbn [show] in E1.
    rewrite bind_run, beginNewLine_run, bind_run in E1.
    destruct fuel as [|fuel]; [discriminate|].
    rewrite writeSchemaRef_seen in E1 by exact Hseen.
    cbn [write buffer indent seenSchemaRefs] in E1. injection E1 as <-.
    cbn [buffer]. rewrite <- !app_assoc. reflexivity.
  - destruct Hin as [Heq|Hin]; [congruence|].
    destruct (IH Hin (S i) s1 s' ltac:(rewrite Hs1; exact Hseen) Hrest)
      as (pre & post & Hbuf).
    exists (t ++ pre), post. rewrite Hbuf, Ht, Hi1, <- !app_assoc. reflexivity.
Qed.

Lemma self_reference_segment api schemas A schema props p node fuel s s' :
  api_schemas api = Some schemas →
  lookupKey A schemas = Some schema → properties schema = Some props →
  truthy (additionalProperties schema ≫= ref) = false →
  lookupKey p props = Some node →
  strictEq (type node) (js "object") = false → ref node = Some A → A ≠ [] →
  A ∉ seenSchemaRefs s →
  writeSchemaRef fuel api A s = Ret tt s' →
  ∃ pre post,
    buffer s' = buffer s ++ pre
                  ++ (newLine ++ tabs (S (indent s)) ++ formatPropertyName p
                        ++ js ": undefined,") ++ post.
Proof.
  intros Ha Hl Hps Hap Hp Hty Hr HA Hnin.
  destruct fuel as [|fuel]; [discriminate|]. cbn [writeSchemaRef].
  apply seenHas_false in Hnin. rewrite Hnin.
  rewrite bind_run, Ha. cbn [checkExists lift mret M_ret]. rewrite Hl.
  rewrite bind_run. cbn [seenAdd]. rewrite bind_run.
  destruct fuel as [|fuel]; [discriminate|]. cbn [writeObject].
  rewrite Hap. cbn [andb]. rewrite Hps, scope_run.
  cbn [buffer indent seenSchemaRefs].
  destruct fuel as [|fuel]; [discriminate|]. cbn [writeProperties].
  unfold forEachOrdered.
  match goal with |- context [forOf ?ks 0 ?b ?st] =>
    destruct (forOf ks 0 b st) as [[] s2|e s2|] eqn:E end; try discriminate.
  eapply propertyLoop_segment in E; try eassumption.
  - destruct E as (pre & post & Hbuf). cbn [buffer indent seenSchemaRefs] in Hbuf.
    cbn [seenDelete]. intros [= <-]. cbn [buffer].
    exists (js "{" ++ pre), (post ++ newLine ++ tabs (pred (indent s2)) ++ js "}").
    rewrite Hbuf, <- !app_assoc. reflexivity.
  - eapply Permutation_in; [symmetry; apply sortStrings_perm|].
    apply in_map_iff. exists (p, node). split; [reflexivity | apply lookupKey_In, Hp].
  - cbn [seenSchemaRefs]. set_solver.
Qed.



(** The guard of [writeObject] on [additionalProperties] cuts the stub of
    such an [A] at the first level: its properties are not written. *)
Example mapOfSelf_is_undefined :
  emitted (writeSchemaRef (stubFuel mapOfSelfApi) mapOfSelfApi (js "A") store0)
  = Some (js "undefined").
Proof. vm_compute. reflexivity. Qed.

Lemma shapeless_object fuel api s :
  writeObject fuel api (scalar "object") s = OutOfFuel ∧
  writePropertyValue fuel api (scalar "object") s = OutOfFuel.
Proof.
  revert s. induction fuel as [|fuel IH]; intros s; [split; reflexivity|].
  destruct (IH s) as [IHo IHv]. split.
  - change (writeObject (S fuel) api (scalar "object") s)
      with (writePropertyValue fuel api (scalar "object") s). exact IHv.
  - change (writePropertyValue (S fuel) api (scalar "object") s)
      with (writeObject fuel api (scalar "object") s). exact IHo.
Qed.

Lemma shapeless_properties fuel s :
  js "A" ∈ seenSchemaRefs s →
  writeProperties fuel shapelessApi
    [(js "self", reference "A"); (js "x", scalar "object")] s = OutOfFuel.
Proof.
  intros Hseen. destruct fuel as [|fuel]; [reflexivity|].
  change (writeProperties (S fuel) shapelessApi
            [(js "self", reference "A"); (js "x", scalar "object")] s)
    with (((beginNewLine (formatPropertyName (js "self") ++ js ": ") ;;
            writeSchemaRef fuel shapelessApi (js "A") ;; write (js ",")) ;;
           ((beginNewLine (formatPropertyName (js "x") ++ js ": ") ;;
             writeObject fuel shapelessApi (scalar "object") ;; write (js ",")) ;;
            skip)) s).
  rewrite bind_run, bind_run, beginNewLine_run, bind_run.
  destruct fuel as [|fuel]; [reflexivity|].
  rewrite writeSchemaRef_seen by exact Hseen.
  cbn [write buffer indent seenSchemaRefs].
  rewrite bind_run, bind_run, beginNewLine_run, bind_run.
  match goal with |- context [writeObject ?f ?a ?n ?st] =>
    rewrite (proj1 (shapeless_object f a st)) end.
  reflexivity.
Qed.


(** ** Checks on small inputs *)

Example array_of_array_of_string :
  getType (array (array (scalar "string"))) None = inr (Inline (js "string[][]")).
Proof. reflexivity. Qed.

Example integer_is_number :
  getType (scalar "integer") None = inr (Inline (js "number")).
Proof. reflexivity. Qed.

Example array_without_items :
  getType (scalar "array") None
  = inl (Error (js "Expected property 'items' on array type but was undefined")).
Proof. reflexivity. Qed.

Example convertVersion_examples :
  convertVersion (js "v1") = js "1.0" ∧ convertVersion (js "v1.2beta3") = js "1.2" ∧
  convertVersion (js "vm_beta") = js "0.0" ∧ convertVersion (js "alpha") = js "0.0".
Proof. repeat split; reflexivity. Qed.

Example map_of_numbers :
  ∃ emit,
    getType (mkJsonSchema None (Some (js "object")) None None None None None None
                          (Some (scalar "integer"))) None
    = inr (Block emit) ∧
    emitted (emit store0) = Some (js "Record<string, number>").
Proof. eexists. split; [reflexivity | vm_compute; reflexivity]. Qed.

Example stub_of_selfApi :
  emitted (writeSchemaRef (stubFuel selfApi) selfApi (js "A") store0)
  = emitted (writeSchemaRef (S (stubFuel selfApi)) selfApi (js "A") store0).
Proof. vm_compute. reflexivity. Qed.
